(** * Workspace registry of ARCLinearGitHub-MCP

    A shallow embedding of
    [src/arc_linear_github_mcp/clients/workspace_registry.py] and the
    properties of its resolution algorithm.

    Modelling choices.
    - Python [str] values are [string]s of ASCII characters; [str.upper]
      and the character classes of [re] are the ASCII ones.
    - A Python [dict] whose iteration order is observed ([_workspaces],
      [_clients]) is an insertion-ordered association list; the team-key
      cache, which is only indexed, is a [gmap].
    - Methods run in a state-and-exception monad over the registry object
      and a world that holds the allocator of object identities and the
      log of the calls made on remote clients.
    - [await] is sequential composition: one coroutine owns the registry. *)

From Stdlib Require Import String Ascii List Arith Bool QArith Lia.
From stdpp Require Import base option list strings gmap fin_maps.

Local Open Scope string_scope.
Local Open Scope list_scope.

(** ** Python strings *)

Module Str.

Definition is_lower (c : ascii) : bool :=
  let n := nat_of_ascii c in (97 <=? n)%nat && (n <=? 122)%nat.

Definition is_upper (c : ascii) : bool :=
  let n := nat_of_ascii c in (65 <=? n)%nat && (n <=? 90)%nat.

(** The class [[A-Za-z]]. *)
Definition is_alpha (c : ascii) : bool := is_upper c || is_lower c.

(** The class [\d] on ASCII text. *)
Definition is_digit (c : ascii) : bool :=
  let n := nat_of_ascii c in (48 <=? n)%nat && (n <=? 57)%nat.

Definition upper_char (c : ascii) : ascii :=
  if is_lower c then ascii_of_nat (nat_of_ascii c - 32) else c.

(** [s.upper()] *)
Fixpoint upper (s : string) : string :=
  match s with
  | EmptyString => EmptyString
  | String c s' => String (upper_char c) (upper s')
  end.

(** [sep.join(l)] *)
Fixpoint join (sep : string) (l : list string) : string :=
  match l with
  | [] => ""
  | [x] => x
  | x :: rest => x +:+ sep +:+ join sep rest
  end.

(** Longest prefix of [s] whose characters satisfy [p], and what follows. *)
Fixpoint span (p : ascii -> bool) (s : string) : string * string :=
  match s with
  | EmptyString => (EmptyString, EmptyString)
  | String c s' =>
      if p c then let (a, b) := span p s' in (String c a, b)
      else (EmptyString, s)
  end.

Fixpoint all_chars (p : ascii -> bool) (s : string) : bool :=
  match s with
  | EmptyString => true
  | String c s' => p c && all_chars p s'
  end.

Definition newline : string := String (ascii_of_nat 10) EmptyString.

End Str.

(** ** Python dictionaries with observable order *)

Module Dict.

Definition t (V : Type) : Type := list (string * V).

(** [d.get(k)] *)
Fixpoint get {V} (d : t V) (k : string) : option V :=
  match d with
  | [] => None
  | (k', v) :: d' => if String.eqb k' k then Some v else get d' k
  end.

(** [k in d] *)
Definition contains {V} (d : t V) (k : string) : bool :=
  match get d k with Some _ => true | None => false end.

(** [d[k] = v]: an existing key keeps its position, a new key goes last. *)
Fixpoint set {V} (d : t V) (k : string) (v : V) : t V :=
  match d with
  | [] => [(k, v)]
  | (k', v') :: d' =>
      if String.eqb k' k then (k', v) :: d' else (k', v') :: set d' k v
  end.

(** [list(d.keys())] and [list(d.values())] *)
Definition keys {V} (d : t V) : list string := map fst d.
Definition values {V} (d : t V) : list V := map snd d.

(** A Python dict never holds a key twice. *)
Definition wf {V} (d : t V) : Prop := NoDup (keys d).

End Dict.

(** ** Data model *)

(** Modelled from the spec: [models/linear.py] is not among the sources.
    A [Team] carries at least an id, a name and a key, all strings, and
    that is all the registry reads of it. *)
Module Team.
Record t : Type := make { id : string; name : string; key : string }.
End Team.

(** Modelled from the spec: [clients/linear.py] is not among the sources.
    A [LinearClient] stores the arguments it was constructed from, which
    the tests read back, and is an object with an identity, which is what
    [is] compares. Its transport handle is not modelled. *)
Module LinearClient.
Record t : Type := {
  id : nat;
  _api_key : string;
  _api_url : string;
  _timeout : Q
}.
End LinearClient.

Inductive Exn : Type :=
| KeyError (msg : string)
| TeamNotFoundError (msg : string)
| ValueError (msg : string).

(** Modelled from the spec: a lookup or a listing on a remote client
    returns, or raises [LinearClientError(msg)], the error of the remote
    client's contract; [close] returns. *)
Inductive Reply (A : Type) : Type :=
| Returns (a : A)
| LinearClientError (msg : string).
Arguments Returns {A} a.
Arguments LinearClientError {A} msg.

(** The remote service behind the clients, a parameter of the
    development. A client reaches it with the arguments it was
    constructed from; the same question gets the same reply. *)
Record Remote : Type := {
  remote_team_by_key : string -> string -> Q -> string -> Reply (option Team.t);
  remote_list_teams : string -> string -> Q -> Reply (list Team.t)
}.

(** Calls made on client objects, in the order they happen. *)
Inductive Call : Type :=
| GetTeamByKey (c : LinearClient.t) (key : string)
| ListTeams (c : LinearClient.t)
| Close (c : LinearClient.t).

Record WorkspaceRegistry : Type := {
  _workspaces : Dict.t string;
  _api_url : string;
  _timeout : Q;
  _clients : Dict.t LinearClient.t;
  _team_cache : gmap string string
}.

Record World : Type := {
  next_id : nat;
  calls : list Call
}.

Record State : Type := { self : WorkspaceRegistry; world : World }.

(** One entry of the ["teams"] list of the bulk report. *)
Record TeamEntry : Type := { entry_key : string; entry_name : string; entry_id : string }.

(** One element of the ["workspaces"] list of the bulk report; [error] is
    [None] when the dictionary has no ["error"] item. *)
Record WorkspaceEntry : Type := {
  workspace : string;
  error : option string;
  teams : list TeamEntry
}.

(** The bulk report [{"workspaces": result}]. *)
Record Report : Type := { workspaces : list WorkspaceEntry }.

(** ** The monad of methods *)

Inductive Result (A : Type) : Type :=
| Ok (a : A)
| Raise (e : Exn).
Arguments Ok {A} a.
Arguments Raise {A} e.

Definition M (A : Type) : Type := State -> Result A * State.

Definition ret {A} (a : A) : M A := fun st => (Ok a, st).

Definition bind {A B} (m : M A) (k : A -> M B) : M B :=
  fun st =>
    match m st with
    | (Ok a, st') => k a st'
    | (Raise e, st') => (Raise e, st')
    end.

Definition raise {A} (e : Exn) : M A := fun st => (Raise e, st).

Declare Scope py_scope.
Delimit Scope py_scope with py.
Notation "x <- m ;; k" := (bind m (fun x => k))
  (at level 100, m at next level, right associativity) : py_scope.
Notation "m ;;; k" := (bind m (fun _ => k))
  (at level 100, right associativity) : py_scope.
Local Open Scope py_scope.

Definition get_self : M WorkspaceRegistry := fun st => (Ok (self st), st).

Definition put_clients (d : Dict.t LinearClient.t) : M unit := fun st =>
  (Ok tt,
   {| self := {| _workspaces := _workspaces (self st);
                 _api_url := _api_url (self st);
                 _timeout := _timeout (self st);
                 _clients := d;
                 _team_cache := _team_cache (self st) |};
      world := world st |}).

Definition put_team_cache (m : gmap string string) : M unit := fun st =>
  (Ok tt,
   {| self := {| _workspaces := _workspaces (self st);
                 _api_url := _api_url (self st);
                 _timeout := _timeout (self st);
                 _clients := _clients (self st);
                 _team_cache := m |};
      world := world st |}).

(** [d[k]] as an expression: [KeyError(k)] when the key is missing. *)
Definition subscript {V} (d : Dict.t V) (k : string) : M V :=
  match Dict.get d k with
  | Some v => ret v
  | None => raise (KeyError k)
  end.

(** [LinearClient(api_key=..., api_url=..., timeout=...)]: a new object. *)
Definition LinearClient_new (api_key api_url : string) (timeout : Q) : M LinearClient.t :=
  fun st =>
    let c := {| LinearClient.id := next_id (world st); LinearClient._api_key := api_key;
                LinearClient._api_url := api_url; LinearClient._timeout := timeout |} in
    (Ok c, {| self := self st;
              world := {| next_id := S (next_id (world st));
                          calls := calls (world st) |} |}).

Definition log (c : Call) : M unit := fun st =>
  (Ok tt, {| self := self st;
             world := {| next_id := next_id (world st);
                         calls := calls (world st) ++ [c] |} |}).

(** ** The methods of [WorkspaceRegistry] *)

(** [WorkspaceRegistry(workspaces, api_url, timeout)] *)
Definition __init__ (workspaces : Dict.t string) (api_url : string) (timeout : Q)
  : WorkspaceRegistry :=
  {| _workspaces := workspaces;
     _api_url := api_url;
     _timeout := timeout;
     _clients := [];
     _team_cache := ∅ |}.

Definition workspace_names (r : WorkspaceRegistry) : list string :=
  Dict.keys (_workspaces r).

Definition unknown_workspace_message (r : WorkspaceRegistry) (workspace_name : string)
  : string :=
  "Workspace '" +:+ workspace_name +:+ "' not configured. "
  +:+ "Available: " +:+ Str.join ", " (Dict.keys (_workspaces r)).

Definition get_client (workspace_name : string) : M LinearClient.t :=
  r <- get_self ;;
  if negb (Dict.contains (_workspaces r) workspace_name) then
    raise (KeyError (unknown_workspace_message r workspace_name))
  else
    (if negb (Dict.contains (_clients r) workspace_name) then
       api_key <- subscript (_workspaces r) workspace_name ;;
       c <- LinearClient_new api_key (_api_url r) (_timeout r) ;;
       put_clients (Dict.set (_clients r) workspace_name c)
     else ret tt) ;;;
    r' <- get_self ;;
    subscript (_clients r') workspace_name.

Definition team_not_found_message (r : WorkspaceRegistry) (team_key : string) : string :=
  "Team '" +:+ team_key +:+ "' not found in any workspace. "
  +:+ "Searched workspaces: " +:+ Str.join ", " (Dict.keys (_workspaces r)) +:+ ". "
  +:+ "Use linear_list_workspaces to see available teams.".

Definition invalid_identifier_message (identifier : string) : string :=
  "Invalid issue identifier format: '" +:+ identifier +:+ "'. "
  +:+ "Expected format: TEAM-123 (e.g., FAVRES-123)".

(** [re.match(r"^([A-Za-z]+)-(\d+)$", identifier)]: the two groups of the
    match, if there is one. The letter run must be followed by the dash,
    so it is the whole run; the digit run must be followed by [$], so it
    is the whole run too. In Python [$] is satisfied at the end of the
    text and also just before a newline that ends the text. *)
Definition at_dollar (rest : string) : bool :=
  String.eqb rest "" || String.eqb rest Str.newline.

Definition issue_match (identifier : string) : option (string * string) :=
  let (letters, r1) := Str.span Str.is_alpha identifier in
  match letters, r1 with
  | String _ _, String "-"%char r2 =>
      let (digits, r3) := Str.span Str.is_digit r2 in
      match digits with
      | String _ _ => if at_dollar r3 then Some (letters, digits) else None
      | EmptyString => None
      end
  | _, _ => None
  end.

(** What the service answers to a client: it sees the arguments the
    client was constructed from. *)
Definition team_reply (remote : Remote) (c : LinearClient.t) (key : string)
  : Reply (option Team.t) :=
  remote_team_by_key remote
    (LinearClient._api_key c) (LinearClient._api_url c) (LinearClient._timeout c) key.

Definition teams_reply (remote : Remote) (c : LinearClient.t) : Reply (list Team.t) :=
  remote_list_teams remote
    (LinearClient._api_key c) (LinearClient._api_url c) (LinearClient._timeout c).

Section Methods.

Context (remote : Remote).

(** [await client.get_team_by_key(key)], with the [try] around it: the
    reply is handed to the caller, who decides what to do with an error. *)
Definition get_team_by_key (c : LinearClient.t) (key : string)
  : M (Reply (option Team.t)) :=
  log (GetTeamByKey c key) ;;;
  ret (team_reply remote c key).

(** [await client.list_teams()], with the [try] around it. *)
Definition list_teams (c : LinearClient.t) : M (Reply (list Team.t)) :=
  log (ListTeams c) ;;;
  ret (teams_reply remote c).

(** [await client.close()] *)
Definition close (c : LinearClient.t) : M unit := log (Close c).

(** The loop [for ws_name in self._workspaces] of [resolve_client_for_team]
    over the names still to visit; [None] when the loop runs to its end. *)
Fixpoint probe (team_key_upper : string) (names : list string)
  : M (option LinearClient.t) :=
  match names with
  | [] => ret None
  | ws_name :: rest =>
      client <- get_client ws_name ;;
      reply <- get_team_by_key client team_key_upper ;;
      match reply with
      | Returns (Some team) =>
          r <- get_self ;;
          put_team_cache (<[team_key_upper := ws_name]> (_team_cache r)) ;;;
          ret (Some client)
      | Returns None => probe team_key_upper rest
      | LinearClientError _ => probe team_key_upper rest
      end
  end.

Definition resolve_client_for_team (team_key : string) : M LinearClient.t :=
  let team_key_upper := Str.upper team_key in
  r <- get_self ;;
  match _team_cache r !! team_key_upper with
  | Some ws => get_client ws
  | None =>
      found <- probe team_key_upper (Dict.keys (_workspaces r)) ;;
      match found with
      | Some client => ret client
      | None =>
          r' <- get_self ;;
          raise (TeamNotFoundError (team_not_found_message r' team_key))
      end
  end.

Definition resolve_client_for_issue (identifier : string) : M LinearClient.t :=
  match issue_match identifier with
  | None => raise (ValueError (invalid_identifier_message identifier))
  | Some (team_key, _) => resolve_client_for_team team_key
  end.

(** The loop [for team in teams] of the bulk listing. *)
Fixpoint record_teams (ws_name : string) (teams : list Team.t)
    (team_list : list TeamEntry) : M (list TeamEntry) :=
  match teams with
  | [] => ret team_list
  | team :: rest =>
      r <- get_self ;;
      put_team_cache (<[Str.upper (Team.key team) := ws_name]> (_team_cache r)) ;;;
      record_teams ws_name rest
        (team_list ++ [{| entry_key := Team.key team;
                          entry_name := Team.name team;
                          entry_id := Team.id team |}])
  end.

(** The loop [for ws_name in self._workspaces] of the bulk listing. *)
Fixpoint list_loop (names : list string) (result : list WorkspaceEntry)
  : M (list WorkspaceEntry) :=
  match names with
  | [] => ret result
  | ws_name :: rest =>
      client <- get_client ws_name ;;
      reply <- list_teams client ;;
      match reply with
      | Returns teams =>
          team_list <- record_teams ws_name teams [] ;;
          list_loop rest
            (result ++ [{| workspace := ws_name; error := None; teams := team_list |}])
      | LinearClientError msg =>
          list_loop rest
            (result ++ [{| workspace := ws_name; error := Some msg; teams := [] |}])
      end
  end.

Definition list_all_workspaces_with_teams : M Report :=
  r <- get_self ;;
  result <- list_loop (Dict.keys (_workspaces r)) [] ;;
  ret {| workspaces := result |}.

Fixpoint close_each (clients : list LinearClient.t) : M unit :=
  match clients with
  | [] => ret tt
  | client :: rest => close client ;;; close_each rest
  end.

Definition close_all : M unit :=
  r <- get_self ;;
  close_each (Dict.values (_clients r)) ;;;
  put_clients [].

End Methods.

(** ** The registry of the test-suite *)

Module Fixture.

Definition workspaces : Dict.t string :=
  [("ios", "lin_api_ios"); ("backend", "lin_api_backend")].

Definition url : string := "https://api.linear.app/graphql".

Definition favres : Team.t := Team.make "team-1" "iOS App" "FAVRES".
Definition back : Team.t := Team.make "team-2" "Backend" "BACK".

(** [ios] owns FAVRES and [backend] owns BACK. *)
Definition remote : Remote :=
  {| remote_team_by_key := fun api_key _ _ key =>
       if String.eqb api_key "lin_api_ios" && String.eqb key "FAVRES" then
         Returns (Some favres)
       else if String.eqb api_key "lin_api_backend" && String.eqb key "BACK" then
         Returns (Some back)
       else Returns None;
     remote_list_teams := fun api_key _ _ =>
       if String.eqb api_key "lin_api_ios" then Returns [favres]
       else if String.eqb api_key "lin_api_backend" then Returns [back]
       else Returns [] |}.

(** The same service while the credential of [ios] is rejected. *)
Definition remote_ios_down : Remote :=
  {| remote_team_by_key := fun api_key u t key =>
       if String.eqb api_key "lin_api_ios" then LinearClientError "401 Unauthorized"
       else remote_team_by_key remote api_key u t key;
     remote_list_teams := fun api_key u t =>
       if String.eqb api_key "lin_api_ios" then LinearClientError "401 Unauthorized"
       else remote_list_teams remote api_key u t |}.

Definition world0 : World := {| next_id := 0; calls := [] |}.

Definition start : State :=
  {| self := __init__ workspaces url (10 # 1); world := world0 |}.

End Fixture.

(** ** Vocabulary of the statements *)

(** The client [get_client] constructs in [st] for a credential. *)
Definition fresh_client (st : State) (api_key : string) : LinearClient.t :=
  {| LinearClient.id := next_id (world st);
     LinearClient._api_key := api_key;
     LinearClient._api_url := _api_url (self st);
     LinearClient._timeout := _timeout (self st) |}.

(** [st] once the new client [c] is stored under [w]. *)
Definition install (st : State) (w : string) (c : LinearClient.t) : State :=
  {| self := {| _workspaces := _workspaces (self st);
                _api_url := _api_url (self st);
                _timeout := _timeout (self st);
                _clients := Dict.set (_clients (self st)) w c;
                _team_cache := _team_cache (self st) |};
     world := {| next_id := S (next_id (world st)); calls := calls (world st) |} |}.

(** [st] with another team-key cache. *)
Definition with_cache (st : State) (m : gmap string string) : State :=
  {| self := {| _workspaces := _workspaces (self st);
                _api_url := _api_url (self st);
                _timeout := _timeout (self st);
                _clients := _clients (self st);
                _team_cache := m |};
     world := world st |}.

(** [st] once a call on a client is on the log. *)
Definition logged (st : State) (c : Call) : State :=
  {| self := self st;
     world := {| next_id := next_id (world st); calls := calls (world st) ++ [c] |} |}.

(** [st] once every client it holds has been closed and dropped. *)
Definition released (st : State) : State :=
  {| self := {| _workspaces := _workspaces (self st);
                _api_url := _api_url (self st);
                _timeout := _timeout (self st);
                _clients := [];
                _team_cache := _team_cache (self st) |};
     world := {| next_id := next_id (world st);
                 calls := calls (world st)
                            ++ map Close (Dict.values (_clients (self st))) |} |}.

(** The client the registry holds for a workspace. *)
Definition client_of (st : State) (w : string) : option LinearClient.t :=
  Dict.get (_clients (self st)) w.

(** The reply of the single-team lookup through the client of a
    credential of registry [r]. *)
Definition lookup_reply (remote : Remote) (r : WorkspaceRegistry)
    (api_key key : string) : Reply (option Team.t) :=
  remote_team_by_key remote api_key (_api_url r) (_timeout r) key.

Definition listing_reply (remote : Remote) (r : WorkspaceRegistry)
    (api_key : string) : Reply (list Team.t) :=
  remote_list_teams remote api_key (_api_url r) (_timeout r).

Definition is_team {A} (reply : Reply (option A)) : bool :=
  match reply with Returns (Some _) => true | _ => false end.

(** Workspace [w] of [r] answers the lookup of [key] with a team. *)
Definition owns (remote : Remote) (r : WorkspaceRegistry) (w key : string) : Prop :=
  exists api_key,
    Dict.get (_workspaces r) w = Some api_key /\
    is_team (lookup_reply remote r api_key key) = true.

(** Workspace [w] of [r] is configured and answers the lookup of [key]
    with no team or with a remote-client error. *)
Definition misses (remote : Remote) (r : WorkspaceRegistry) (w key : string) : Prop :=
  exists api_key,
    Dict.get (_workspaces r) w = Some api_key /\
    is_team (lookup_reply remote r api_key key) = false.

(** The public operations, and the state each one leaves behind, whether
    it returns or raises. *)
Inductive Op : Type :=
| OpWorkspaceNames
| OpGetClient (workspace_name : string)
| OpResolveTeam (team_key : string)
| OpResolveIssue (identifier : string)
| OpListAll
| OpCloseAll.

Definition run_op (remote : Remote) (op : Op) (st : State) : State :=
  match op with
  | OpWorkspaceNames => st
  | OpGetClient w => snd (get_client w st)
  | OpResolveTeam k => snd (resolve_client_for_team remote k st)
  | OpResolveIssue i => snd (resolve_client_for_issue remote i st)
  | OpListAll => snd (list_all_workspaces_with_teams remote st)
  | OpCloseAll => snd (close_all st)
  end.

(** States reachable from the construction of a registry over a
    dictionary of workspaces; the log starts with the registry, and the
    allocator is anywhere. *)
Inductive reachable (remote : Remote) : State -> Prop :=
| reachable_init workspaces api_url timeout n0 :
    Dict.wf workspaces ->
    reachable remote {| self := __init__ workspaces api_url timeout;
                        world := {| next_id := n0; calls := [] |} |}
| reachable_step op st :
    reachable remote st -> reachable remote (run_op remote op st).

(** The team-key cache only names configured workspaces. *)
Definition cache_configured (r : WorkspaceRegistry) : Prop :=
  forall key w, _team_cache r !! key = Some w -> w ∈ workspace_names r.

(** Every client the registry holds was constructed by [get_client]: it
    belongs to a configured workspace and stores that workspace's
    credential and the registry's endpoint and timeout. *)
Definition clients_built (st : State) : Prop :=
  forall w c, client_of st w = Some c ->
    exists api_key, Dict.get (_workspaces (self st)) w = Some api_key /\
      LinearClient._api_key c = api_key /\ LinearClient._api_url c = _api_url (self st) /\
      LinearClient._timeout c = _timeout (self st).

(** The clients the log shows closed, in the order of their [close]. *)
Definition closed_clients (cs : list Call) : list LinearClient.t :=
  flat_map (fun call => match call with Close c => [c] | _ => [] end) cs.

(** The clients created so far: those closed, then those held. *)
Definition created (st : State) : list LinearClient.t :=
  closed_clients (calls (world st)) ++ Dict.values (_clients (self st)).

(** The clients created so far are the objects allocated since some
    identity [n0], each listed once, in the order of their allocation. *)
Definition created_in_order (st : State) : Prop :=
  exists n0, (n0 <= next_id (world st))%nat /\
    map LinearClient.id (created st) = seq n0 (next_id (world st) - n0).

(** What holds of every reachable state: the cache names configured
    workspaces; each configured workspace has at most one client, built
    from its credential; every client ever created is held, or has been
    closed, once. *)
Record registry_inv (st : State) : Prop := {
  inv_workspaces : Dict.wf (_workspaces (self st));
  inv_cache : cache_configured (self st);
  inv_clients : Dict.wf (_clients (self st));
  inv_created : created_in_order st;
  inv_built : clients_built st
}.

(** From [st] to [st'] the configuration is kept and no client is
    dropped or replaced. *)
Record grows (st st' : State) : Prop := {
  grows_workspaces : _workspaces (self st') = _workspaces (self st);
  grows_api_url : _api_url (self st') = _api_url (self st);
  grows_timeout : _timeout (self st') = _timeout (self st);
  grows_clients : forall w c, client_of st w = Some c -> client_of st' w = Some c;
  grows_next_id : (next_id (world st) <= next_id (world st'))%nat
}.

(** The identifier format in the words of the specification: a run of
    letters, a dash, a run of digits, and nothing else. *)
Definition strict_issue_format (identifier : string) : bool :=
  let (letters, r1) := Str.span Str.is_alpha identifier in
  match letters, r1 with
  | String _ _, String "-"%char r2 =>
      match r2 with
      | String _ _ => Str.all_chars Str.is_digit r2
      | EmptyString => false
      end
  | _, _ => false
  end.

(** Two outcomes of a resolution from [st] agree: they are the same
    exception or the same client object; or, when [st] holds no client for
    the workspace resolved to, each is the client newly constructed for
    that workspace, from the same arguments. *)
Definition same_resolution (st : State)
    (o1 o2 : Result LinearClient.t * State) : Prop :=
  fst o1 = fst o2 \/
  exists w c1 c2,
    fst o1 = Ok c1 /\ fst o2 = Ok c2 /\
    client_of st w = None /\
    client_of (snd o1) w = Some c1 /\ client_of (snd o2) w = Some c2 /\
    LinearClient._api_key c1 = LinearClient._api_key c2 /\
    LinearClient._api_url c1 = LinearClient._api_url c2 /\
    LinearClient._timeout c1 = LinearClient._timeout c2.

(** The entry the bulk listing reports for a workspace, given the reply of
    its client. *)
Definition entry_of (w : string) (reply : Reply (list Team.t)) : WorkspaceEntry :=
  match reply with
  | Returns ts =>
      {| workspace := w; error := None;
         teams := map (fun t => {| entry_key := Team.key t;
                                   entry_name := Team.name t;
                                   entry_id := Team.id t |}) ts |}
  | LinearClientError msg => {| workspace := w; error := Some msg; teams := [] |}
  end.

(** The cache insertions the bulk listing makes for a workspace. *)
Definition discovered (w : string) (reply : Reply (list Team.t))
  : list (string * string) :=
  match reply with
  | Returns ts => map (fun t => (Str.upper (Team.key t), w)) ts
  | LinearClientError _ => []
  end.

Definition insert_all (m : gmap string string) (kvs : list (string * string))
  : gmap string string :=
  fold_left (fun m kv => <[fst kv := snd kv]> m) kvs m.

(** ** Settings

    The two methods of [config/settings.py] that are plain Python: the
    validator that runs after the fields are set, and the property that
    turns the fields into the mapping the registry is built from. How
    pydantic fills the fields from the environment is not modelled. *)

Module Settings.
Record t : Type := {
  linear_api_key : option string;
  linear_workspaces : option (Dict.t string);
  linear_api_url : string;
  github_token : string;
  github_api_url : string;
  github_org : string;
  default_project : string;
  default_repo : string;
  request_timeout : Q
}.
End Settings.

(** Truth value of a [str | None] and of a [dict | None]. *)
Definition truthy_str (o : option string) : bool :=
  match o with Some (String _ _) => true | _ => false end.

Definition truthy_dict {V} (o : option (Dict.t V)) : bool :=
  match o with Some (_ :: _) => true | _ => false end.

Definition validate_linear_config (s : Settings.t) : Result Settings.t :=
  if negb (truthy_str (Settings.linear_api_key s))
     && negb (truthy_dict (Settings.linear_workspaces s))
  then Raise (ValueError "At least one of LINEAR_API_KEY or LINEAR_WORKSPACES must be set.")
  else Ok s.

(** The property [resolved_workspaces]. A credential is [None] where the
    Python dictionary holds [None], which the annotation of the source
    rules out and its [type: ignore] admits. *)
Definition resolved_workspaces (s : Settings.t) : Dict.t (option string) :=
  if truthy_dict (Settings.linear_workspaces s) then
    match Settings.linear_workspaces s with
    | Some d => map (fun kv => (fst kv, Some (snd kv))) d
    | None => []
    end
  else [("default", Settings.linear_api_key s)].

(** A mapping of credentials as a Python dictionary none of whose values
    is [None]. *)
Definition credentials (d : Dict.t string) : Dict.t (option string) :=
  map (fun kv => (fst kv, Some (snd kv))) d.

(** The values the validator that runs before the fields are set can
    meet: [None], a string, or any other object, of which only the truth
    value matters. *)
Inductive PyValue (Obj : Type) : Type :=
| PyNone
| PyStr (s : string)
| PyObj (o : Obj).
Arguments PyNone {Obj}.
Arguments PyStr {Obj} s.
Arguments PyObj {Obj} o.

(** The argument [data] of that validator: a dictionary, or not. *)
Inductive PyData (Obj : Type) : Type :=
| DataDict (d : Dict.t (PyValue Obj))
| DataOther (o : Obj).
Arguments DataDict {Obj} d.
Arguments DataOther {Obj} o.

Section BeforeValidator.

Context {Obj : Type}.
(** Truth value of an object that is neither [None] nor a string. *)
Context (truthy : Obj -> bool).
(** [json.loads]: the value parsed, or the exception raised. *)
Context (json_loads : string -> Result (PyValue Obj)).

Definition py_truthy (v : PyValue Obj) : bool :=
  match v with
  | PyNone => false
  | PyStr s => negb (String.eqb s "")
  | PyObj o => truthy o
  end.

(** [d.get(k)]: [None] for a missing key. *)
Definition py_get (d : Dict.t (PyValue Obj)) (k : string) : PyValue Obj :=
  match Dict.get d k with Some v => v | None => PyNone end.

(** [a or b] *)
Definition py_or (a b : PyValue Obj) : PyValue Obj :=
  if py_truthy a then a else b.

Definition parse_linear_workspaces (data : PyData Obj) : Result (PyData Obj) :=
  match data with
  | DataDict d =>
      let raw := py_or (py_get d "linear_workspaces") (py_get d "LINEAR_WORKSPACES") in
      match raw with
      | PyStr s =>
          match json_loads s with
          | Ok v => Ok (DataDict (Dict.set d "linear_workspaces" v))
          | Raise e => Raise e
          end
      | _ => Ok data
      end
  | DataOther _ => Ok data
  end.

End BeforeValidator.

(** The settings of the tests, in single-key mode. *)
Definition single_key_settings : Settings.t :=
  {| Settings.linear_api_key := Some "lin_api_single";
     Settings.linear_workspaces := None;
     Settings.linear_api_url := "https://api.linear.app/graphql";
     Settings.github_token := "ghp_test";
     Settings.github_api_url := "https://api.github.com";
     Settings.github_org := "test-org";
     Settings.default_project := "TEST";
     Settings.default_repo := "TestRepo";
     Settings.request_timeout := 30 # 1 |}.

(** ** Frames

    Relations between the state before and the state after a method. *)

(** The configuration is the one the registry was constructed with. *)
Definition same_config (st st' : State) : Prop :=
  _workspaces (self st') = _workspaces (self st) /\
  _api_url (self st') = _api_url (self st) /\
  _timeout (self st') = _timeout (self st).

(** Every entry of the cache is still there, unchanged. *)
Definition cache_kept (st st' : State) : Prop :=
  forall key w, _team_cache (self st) !! key = Some w ->
                _team_cache (self st') !! key = Some w.

(** Every key of the cache is still a key of it. *)
Definition cache_keys_kept (st st' : State) : Prop :=
  forall key, is_Some (_team_cache (self st) !! key) ->
              is_Some (_team_cache (self st') !! key).

(** A method keeps a relation between the state it starts from and the
    state it ends in, whether it returns or raises. *)
Definition keeps {A} (R : State -> State -> Prop) (m : M A) : Prop :=
  forall st, R st (snd (m st)).

(** The calls a method adds to the log. *)
Definition is_lookup (key : string) (call : Call) : bool :=
  match call with GetTeamByKey _ k => String.eqb k key | _ => false end.

(** ** Dictionaries *)

Section DictFacts.

Context {V : Type}.
Implicit Types (d : Dict.t V) (k : string) (v : V).

Lemma dict_get_set_eq d k v : Dict.get (Dict.set d k v) k = Some v.
Proof.
  induction d as [|[k' v'] d IH]; simpl.
  - by rewrite String.eqb_refl.
  - destruct (String.eqb k' k) eqn:E; simpl; rewrite E; [done | exact IH].
Qed.

Lemma dict_get_set_ne d k k' v :
  k <> k' -> Dict.get (Dict.set d k v) k' = Dict.get d k'.
Proof.
  intros Hne. induction d as [|[k0 v0] d IH]; simpl.
  - destruct (String.eqb k k') eqn:E; [|done].
    apply String.eqb_eq in E. contradiction.
  - destruct (String.eqb k0 k) eqn:E; simpl.
    + apply String.eqb_eq in E. subst k0.
      destruct (String.eqb k k') eqn:E'; [|done].
      apply String.eqb_eq in E'. contradiction.
    + by rewrite IH.
Qed.

Lemma dict_get_None d k : Dict.get d k = None <-> k ∉ Dict.keys d.
Proof.
  induction d as [|[k' v'] d IH]; simpl.
  - split; [intros _; apply not_elem_of_nil | done].
  - rewrite not_elem_of_cons. destruct (String.eqb k' k) eqn:E.
    + apply String.eqb_eq in E. split; [done | intros [? _]; congruence].
    + apply String.eqb_neq in E. rewrite IH. split; [intros; split; congruence | tauto].
Qed.

Lemma dict_get_is_Some d k : is_Some (Dict.get d k) <-> k ∈ Dict.keys d.
Proof.
  destruct (Dict.get d k) eqn:E.
  - split; [intros _ | eauto].
    destruct (decide (k ∈ Dict.keys d)) as [|Hn]; [done|].
    apply dict_get_None in Hn. congruence.
  - apply dict_get_None in E. split; [intros [? ?]; done | done].
Qed.

Lemma dict_set_new d k v :
  Dict.get d k = None -> Dict.set d k v = d ++ [(k, v)].
Proof.
  induction d as [|[k' v'] d IH]; simpl; [done|].
  destruct (String.eqb k' k); [done|]. intros H. by rewrite IH.
Qed.

End DictFacts.

(** ** Strings *)

Lemma span_spec p s a b :
  Str.span p s = (a, b) ->
  s = a +:+ b /\ Str.all_chars p a = true /\
  match b with String c _ => p c = false | EmptyString => True end.
Proof.
  revert a b. induction s as [|c s IH]; simpl; intros a b.
  - intros [= <- <-]. done.
  - destruct (p c) eqn:E.
    + destruct (Str.span p s) as [a' b'] eqn:E'. intros [= <- <-].
      destruct (IH _ _ eq_refl) as (-> & Ha & Hb). simpl. by rewrite E, Ha.
    + intros [= <- <-]. simpl. done.
Qed.

(** ** Primitive steps of [get_client] *)

Lemma get_client_unknown w st :
  Dict.get (_workspaces (self st)) w = None ->
  get_client w st =
    (Raise (KeyError (unknown_workspace_message (self st) w)), st).
Proof.
  intros H. unfold get_client, bind, get_self, Dict.contains. rewrite H. done.
Qed.

Lemma get_client_cached w c st :
  is_Some (Dict.get (_workspaces (self st)) w) ->
  client_of st w = Some c ->
  get_client w st = (Ok c, st).
Proof.
  intros [a Ha] Hc. unfold client_of in Hc.
  unfold get_client, bind, get_self, Dict.contains, subscript, ret.
  rewrite Ha. simpl. rewrite Hc. simpl. rewrite Hc. done.
Qed.

Lemma get_client_fresh w api_key st :
  Dict.get (_workspaces (self st)) w = Some api_key ->
  client_of st w = None ->
  get_client w st =
    (Ok (fresh_client st api_key), install st w (fresh_client st api_key)).
Proof.
  intros Ha Hc. unfold client_of in Hc.
  unfold get_client, bind, get_self, Dict.contains, subscript, ret,
    LinearClient_new, put_clients.
  rewrite Ha. simpl. rewrite Hc. simpl. rewrite dict_get_set_eq. done.
Qed.

Lemma grows_refl st : grows st st.
Proof. by split. Qed.

Lemma grows_trans st1 st2 st3 : grows st1 st2 -> grows st2 st3 -> grows st1 st3.
Proof.
  intros [A1 B1 C1 D1 E1] [A2 B2 C2 D2 E2]. split; try congruence; [auto | lia].
Qed.

Lemma grows_install st w c : client_of st w = None -> grows st (install st w c).
Proof.
  intros Hn. split; simpl; try done; [|lia].
  intros w' c' H. unfold client_of in *. simpl.
  rewrite dict_get_set_ne; [done|]. intros ->. congruence.
Qed.

Lemma clients_built_install st w api_key :
  Dict.get (_workspaces (self st)) w = Some api_key ->
  clients_built st ->
  clients_built (install st w (fresh_client st api_key)).
Proof.
  intros Ha Hb w' c'. unfold client_of. simpl.
  destruct (decide (w = w')) as [<-|Hne].
  - rewrite dict_get_set_eq. intros [= <-]. by exists api_key.
  - rewrite dict_get_set_ne by done. apply Hb.
Qed.

(** [get_client] on a configured workspace: it returns the client the
    registry holds afterwards, which is the one it held before or a new
    one built from the workspace's credential. *)
Lemma get_client_configured w api_key st :
  Dict.get (_workspaces (self st)) w = Some api_key ->
  exists c st',
    get_client w st = (Ok c, st') /\
    client_of st' w = Some c /\
    grows st st' /\
    _team_cache (self st') = _team_cache (self st) /\
    calls (world st') = calls (world st) /\
    (clients_built st -> clients_built st') /\
    (client_of st w = Some c /\ st' = st \/
     client_of st w = None /\ c = fresh_client st api_key /\ st' = install st w c).
Proof.
  intros Ha. destruct (client_of st w) as [c|] eqn:Hc.
  - exists c, st. rewrite (get_client_cached w c st) by eauto.
    split_and!; auto using grows_refl.
  - exists (fresh_client st api_key), (install st w (fresh_client st api_key)).
    rewrite (get_client_fresh w api_key st) by done.
    split_and!; auto using grows_install, clients_built_install.
    unfold client_of. simpl. apply dict_get_set_eq.
Qed.

Lemma get_client_calls w st :
  calls (world (snd (get_client w st))) = calls (world st).
Proof.
  destruct (Dict.get (_workspaces (self st)) w) as [a|] eqn:Ha.
  - destruct (get_client_configured w a st Ha) as (c & st' & -> & _ & _ & _ & Hc & _).
    exact Hc.
  - by rewrite get_client_unknown.
Qed.

(** ** The invariant along the primitive steps *)

Lemma registry_inv_install st w api_key :
  Dict.get (_workspaces (self st)) w = Some api_key ->
  client_of st w = None ->
  registry_inv st ->
  registry_inv (install st w (fresh_client st api_key)).
Proof.
  intros Ha Hn [Hws Hcache Hcl (n0 & Hle & Hids) Hbuilt]. unfold client_of in Hn.
  split; simpl; try done.
  - unfold Dict.wf, Dict.keys. rewrite (dict_set_new _ _ _ Hn), map_app. simpl.
    apply NoDup_app. split_and!; [done | | apply NoDup_singleton].
    intros x Hx ->%list_elem_of_singleton. by apply dict_get_None in Hn.
  - exists n0. split; [simpl; lia|]. unfold created, Dict.values in *. simpl.
    rewrite (dict_set_new _ _ _ Hn), (map_app snd), app_assoc, (map_app LinearClient.id), Hids.
    simpl.
    replace (S (next_id (world st)) - n0)%nat with ((next_id (world st) - n0) + 1)%nat
      by lia.
    rewrite seq_app. simpl. do 2 f_equal. lia.
  - by apply clients_built_install.
Qed.

Lemma closed_clients_app cs cs' :
  closed_clients (cs ++ cs') = closed_clients cs ++ closed_clients cs'.
Proof. apply flat_map_app. Qed.

Lemma closed_clients_Close cs : closed_clients (map Close cs) = cs.
Proof. induction cs as [|c cs IH]; simpl; [done | by rewrite IH]. Qed.

(** A call other than [close] keeps the invariant. *)
Lemma registry_inv_logged st call :
  closed_clients [call] = [] -> registry_inv st -> registry_inv (logged st call).
Proof.
  intros Hcall [? ? ? (n0 & Hle & Hids) ?]. split; try done.
  exists n0. split; [done|]. unfold created in *. simpl.
  by rewrite closed_clients_app, Hcall, app_nil_r.
Qed.

Lemma created_NoDup st : created_in_order st -> NoDup (created st).
Proof.
  intros (n0 & _ & Hids). apply (NoDup_fmap_1 LinearClient.id).
  change (NoDup (map LinearClient.id (created st))). rewrite Hids. apply NoDup_seq.
Qed.

Lemma created_old st c :
  created_in_order st -> c ∈ created st -> (LinearClient.id c < next_id (world st))%nat.
Proof.
  intros (n0 & Hle & Hids) Hc.
  assert (Hin : LinearClient.id c ∈ map LinearClient.id (created st))
    by (apply list_elem_of_fmap; eauto).
  rewrite Hids in Hin. apply elem_of_seq in Hin. lia.
Qed.

Lemma registry_inv_cache_insert st key w :
  w ∈ workspace_names (self st) ->
  registry_inv st ->
  registry_inv (with_cache st (<[key := w]> (_team_cache (self st)))).
Proof.
  intros Hw [? Hcache ? ? ?]. split; try done.
  intros key' w'. simpl. rewrite lookup_insert. case_decide.
  - by intros [= <-].
  - apply Hcache.
Qed.

Lemma get_client_inv w st :
  registry_inv st -> registry_inv (snd (get_client w st)).
Proof.
  intros Hinv. destruct (Dict.get (_workspaces (self st)) w) as [a|] eqn:Ha.
  - destruct (get_client_configured w a st Ha)
      as (c & st' & -> & _ & _ & _ & _ & _ & [[_ ->] | (Hn & -> & ->)]); simpl;
      auto using registry_inv_install.
  - by rewrite get_client_unknown.
Qed.

Lemma grows_logged st call : grows st (logged st call).
Proof. by split. Qed.

Lemma grows_with_cache st m : grows st (with_cache st m).
Proof. by split. Qed.

Section Probing.

Context (remote : Remote).

Lemma get_team_by_key_step c key st :
  get_team_by_key remote c key st =
    (Ok (team_reply remote c key),
     logged st (GetTeamByKey c key)).
Proof. reflexivity. Qed.

Lemma misses_shrinks st st' w key :
  grows st st' -> misses remote (self st') w key -> misses remote (self st) w key.
Proof.
  intros [Hw Hu Ht _ _] (a & Ha & Hr). exists a. unfold lookup_reply in *.
  by rewrite <- Hw, <- Hu, <- Ht.
Qed.

Lemma owns_shrinks st st' w key :
  grows st st' -> owns remote (self st') w key -> owns remote (self st) w key.
Proof.
  intros [Hw Hu Ht _ _] (a & Ha & Hr). exists a. unfold lookup_reply in *.
  by rewrite <- Hw, <- Hu, <- Ht.
Qed.

Lemma owns_misses_excl r w key :
  owns remote r w key -> misses remote r w key -> False.
Proof. intros (a & Ha & Hr) (a' & Ha' & Hr'). congruence. Qed.

(** The reply a held client gives is the reply of its workspace. *)
Lemma built_reply st w c key :
  clients_built st -> client_of st w = Some c ->
  exists api_key,
    Dict.get (_workspaces (self st)) w = Some api_key /\
    team_reply remote c key = lookup_reply remote (self st) api_key key.
Proof.
  intros Hb Hc. destruct (Hb w c Hc) as (a & Ha & <- & Hu & Ht).
  exists (LinearClient._api_key c). unfold lookup_reply, team_reply. by rewrite Hu, Ht.
Qed.

(** One turn of the probing loop. *)
Lemma probe_cons_hit key w rest st c st1 :
  get_client w st = (Ok c, st1) ->
  is_team (team_reply remote c key) = true ->
  probe remote key (w :: rest) st =
    (Ok (Some c),
     with_cache (logged st1 (GetTeamByKey c key)) (<[key := w]> (_team_cache (self st1)))).
Proof.
  intros Hget Hr. simpl. unfold bind at 1. rewrite Hget. unfold bind at 1.
  rewrite get_team_by_key_step.
  by destruct (team_reply remote c key) as [[team|]|msg].
Qed.

Lemma probe_cons_miss key w rest st c st1 :
  get_client w st = (Ok c, st1) ->
  is_team (team_reply remote c key) = false ->
  probe remote key (w :: rest) st =
    probe remote key rest (logged st1 (GetTeamByKey c key)).
Proof.
  intros Hget Hr. simpl. unfold bind at 1. rewrite Hget. unfold bind at 1.
  rewrite get_team_by_key_step.
  by destruct (team_reply remote c key) as [[team|]|msg].
Qed.

Lemma probe_cons_raise key w rest st e st1 :
  get_client w st = (Raise e, st1) ->
  probe remote key (w :: rest) st = (Raise e, st1).
Proof. intros Hget. simpl. unfold bind at 1. by rewrite Hget. Qed.

(** What the probing loop does, for any replies of the workspaces: it
    visits a prefix of the names, looking each one up once through the
    client of that workspace; it stops at the first owner, whose name it
    caches and whose client it returns, or visits every name and finds
    none. *)
Lemma probe_post key names : forall st,
  names ⊆ workspace_names (self st) ->
  clients_built st ->
  exists found st' probed cs,
    probe remote key names st = (Ok found, st') /\
    grows st st' /\ clients_built st' /\
    (registry_inv st -> registry_inv st') /\
    Forall2 (fun w c => client_of st' w = Some c) probed cs /\
    calls (world st') = calls (world st) ++ map (fun c => GetTeamByKey c key) cs /\
    match found with
    | None =>
        probed = names /\ _team_cache (self st') = _team_cache (self st) /\
        Forall (fun w => misses remote (self st) w key) names
    | Some c =>
        exists pre w post,
          names = pre ++ w :: post /\ probed = pre ++ [w] /\
          Forall (fun w' => misses remote (self st) w' key) pre /\
          owns remote (self st) w key /\
          _team_cache (self st') = <[key := w]> (_team_cache (self st)) /\
          client_of st' w = Some c
    end.
Proof.
  induction names as [|w rest IH]; intros st Hsub Hbuilt.
  { exists None, st, [], []. simpl. rewrite app_nil_r.
    split_and!; auto using grows_refl. }
  assert (Hw : w ∈ workspace_names (self st)) by (apply Hsub; left).
  apply dict_get_is_Some in Hw as [a Ha].
  destruct (get_client_configured w a st Ha)
    as (c & st1 & Hget & Hc1 & Hg1 & Hcache1 & Hcalls1 & Hb1 & _).
  specialize (Hb1 Hbuilt).
  assert (Hinv1 : registry_inv st -> registry_inv st1).
  { intros Hinv. pose proof (get_client_inv w st Hinv) as H. by rewrite Hget in H. }
  destruct (built_reply st1 w c key Hb1 Hc1) as (a1 & Ha1 & Hreply).
  pose (st2 := logged st1 (GetTeamByKey c key)).
  assert (Hg2 : grows st st2) by (eapply grows_trans; [exact Hg1 | apply grows_logged]).
  assert (Hws2 : workspace_names (self st2) = workspace_names (self st)).
  { unfold workspace_names. by rewrite (grows_workspaces _ _ Hg2). }
  assert (Hsame : lookup_reply remote (self st1) a1 key = lookup_reply remote (self st) a key).
  { destruct Hg1 as [Hws Hu Ht _ _]. rewrite Hws in Ha1.
    assert (a1 = a) as -> by congruence. unfold lookup_reply. by rewrite Hu, Ht. }
  rewrite Hsame in Hreply.
  destruct (is_team (lookup_reply remote (self st) a key)) eqn:Hr.
  - (* the workspace owns the key: the loop ends here *)
    rewrite (probe_cons_hit key w rest st c st1 Hget) by (by rewrite Hreply).
    exists (Some c), (with_cache st2 (<[key := w]> (_team_cache (self st1)))), [w], [c].
    split_and!.
    + reflexivity.
    + eapply grows_trans; [exact Hg2 | apply grows_with_cache].
    + exact Hb1.
    + intros Hinv. apply (registry_inv_cache_insert st2).
      * rewrite Hws2. apply dict_get_is_Some. eauto.
      * apply registry_inv_logged; auto.
    + constructor; [exact Hc1 | constructor].
    + simpl. by rewrite Hcalls1.
    + exists [], w, rest. split_and!; try done.
      * by exists a.
      * simpl. by rewrite Hcache1.
  - (* no team, or a remote-client error: on to the next workspace *)
    rewrite (probe_cons_miss key w rest st c st1 Hget) by (by rewrite Hreply).
    fold st2.
    destruct (IH st2)
      as (found & st' & probed & cs & Hp & Hg & Hb & Hinv & Hf2 & Hcalls & Hfound).
    { rewrite Hws2. intros x Hx. apply Hsub. by right. }
    { exact Hb1. }
    assert (Hmiss : misses remote (self st) w key) by (by exists a).
    exists found, st', (w :: probed), (c :: cs). split_and!.
    + exact Hp.
    + eapply grows_trans; [exact Hg2 | exact Hg].
    + exact Hb.
    + intros Hi. apply Hinv, registry_inv_logged; auto.
    + constructor; [|exact Hf2]. apply (grows_clients _ _ Hg). exact Hc1.
    + rewrite Hcalls. simpl. rewrite Hcalls1, <- app_assoc. reflexivity.
    + destruct found as [c'|].
      * destruct Hfound as (pre & w' & post & -> & -> & Hpre & Hown & Hcache & Hc').
        exists (w :: pre), w', post. split_and!; try done.
        -- constructor; [exact Hmiss|].
           eapply Forall_impl; [exact Hpre|]. intros x. apply misses_shrinks, Hg2.
        -- eapply owns_shrinks; [exact Hg2 | exact Hown].
        -- rewrite Hcache. simpl. by rewrite Hcache1.
      * destruct Hfound as (-> & Hcache & Hall). split_and!; try done.
        -- rewrite Hcache. simpl. exact Hcache1.
        -- constructor; [exact Hmiss|].
           eapply Forall_impl; [exact Hall|]. intros x. apply misses_shrinks, Hg2.
Qed.

Lemma first_owner_unique r key pre w post pre' w' post' :
  pre ++ w :: post = pre' ++ w' :: post' ->
  Forall (fun x => misses remote r x key) pre -> owns remote r w key ->
  Forall (fun x => misses remote r x key) pre' -> owns remote r w' key ->
  pre = pre' /\ w = w' /\ post = post'.
Proof.
  revert pre'. induction pre as [|x pre IH]; intros [|x' pre'] Heq Hpre Hw Hpre' Hw';
    simpl in Heq.
  - by injection Heq as -> ->.
  - injection Heq as -> _. apply Forall_cons in Hpre' as [Hx _].
    destruct (owns_misses_excl _ _ _ Hw Hx).
  - injection Heq as -> _. apply Forall_cons in Hpre as [Hx _].
    destruct (owns_misses_excl _ _ _ Hw' Hx).
  - injection Heq as -> Heq. apply Forall_cons in Hpre as [_ Hpre].
    apply Forall_cons in Hpre' as [_ Hpre'].
    destruct (IH pre' Heq Hpre Hw Hpre' Hw') as (-> & -> & ->). done.
Qed.

(** The two branches of [resolve_client_for_team]. *)
Lemma resolve_cached k w st :
  _team_cache (self st) !! Str.upper k = Some w ->
  resolve_client_for_team remote k st = get_client w st.
Proof.
  intros H. unfold resolve_client_for_team, bind at 1, get_self. simpl. by rewrite H.
Qed.

Lemma resolve_uncached k st :
  _team_cache (self st) !! Str.upper k = None ->
  resolve_client_for_team remote k st =
    match probe remote (Str.upper k) (workspace_names (self st)) st with
    | (Ok (Some c), st') => (Ok c, st')
    | (Ok None, st') =>
        (Raise (TeamNotFoundError (team_not_found_message (self st') k)), st')
    | (Raise e, st') => (Raise e, st')
    end.
Proof.
  intros H. unfold resolve_client_for_team, bind at 1, get_self. simpl. rewrite H.
  unfold bind at 1, workspace_names.
  by destruct (probe remote (Str.upper k) _ st) as [[[c|]|e] st'].
Qed.

(** C1. On a cache miss, [resolve_client_for_team] probes the configured
    workspaces in configuration order: when [w] is the first workspace
    whose lookup of the upper-cased key returns a team, the workspaces
    before it having answered with no team or with a remote-client error,
    it records [w] in the cache under the upper-cased key and returns the
    client of [w]; the lookups it made are one on each workspace up to and
    including [w], in order, and none on a later workspace. *)
Theorem resolve_probes_in_configuration_order k st pre w post :
  clients_built st ->
  _team_cache (self st) !! Str.upper k = None ->
  workspace_names (self st) = pre ++ w :: post ->
  Forall (fun w' => misses remote (self st) w' (Str.upper k)) pre ->
  owns remote (self st) w (Str.upper k) ->
  exists c st' cs,
    resolve_client_for_team remote k st = (Ok c, st') /\
    _team_cache (self st') = <[Str.upper k := w]> (_team_cache (self st)) /\
    client_of st' w = Some c /\
    Dict.get (_workspaces (self st)) w = Some (LinearClient._api_key c) /\
    Forall2 (fun w' c' => client_of st' w' = Some c') (pre ++ [w]) cs /\
    calls (world st') =
      calls (world st) ++ map (fun c' => GetTeamByKey c' (Str.upper k)) cs.
Proof.
  intros Hbuilt Hmiss Hnames Hpre Hown.
  destruct (probe_post (Str.upper k) (workspace_names (self st)) st)
    as (found & st' & probed & cs & Hp & Hg & Hb & _ & Hf2 & Hcalls & Hfound); [done.. |].
  rewrite (resolve_uncached k st Hmiss), Hp.
  destruct found as [c|].
  - destruct Hfound as (pre' & w' & post' & Hsplit & -> & Hpre' & Hown' & Hcache & Hc).
    rewrite Hnames in Hsplit.
    destruct (first_owner_unique _ _ _ _ _ _ _ _ Hsplit Hpre Hown Hpre' Hown')
      as (<- & <- & <-).
    exists c, st', cs. split_and!; try done.
    destruct (Hb w c Hc) as (a & Ha & <- & _).
    by rewrite <- (grows_workspaces _ _ Hg).
  - destruct Hfound as (_ & _ & Hall). rewrite Hnames in Hall.
    apply Forall_app in Hall as [_ [Hw _]%Forall_cons].
    destruct (owns_misses_excl _ _ _ Hown Hw).
Qed.

(** C2. On a cache hit, [resolve_client_for_team] is [get_client] of the
    cached workspace name, and it adds no call to the log of the remote
    clients. *)
Theorem resolve_cache_hit_no_remote_call k w st :
  _team_cache (self st) !! Str.upper k = Some w ->
  resolve_client_for_team remote k st = get_client w st /\
  calls (world (snd (resolve_client_for_team remote k st))) = calls (world st).
Proof.
  intros H. rewrite (resolve_cached k w st H). split; [done | apply get_client_calls].
Qed.

(** C4. On a cache miss, when every configured workspace answers the
    lookup with no team or with a remote-client error, every workspace is
    looked up once, in configuration order, whatever the errors, and
    [resolve_client_for_team] raises [TeamNotFoundError] with a message
    that lists the workspace names and points to [linear_list_workspaces];
    the cache is left as it was. *)
Theorem resolve_team_not_found k st :
  clients_built st ->
  _team_cache (self st) !! Str.upper k = None ->
  Forall (fun w => misses remote (self st) w (Str.upper k)) (workspace_names (self st)) ->
  exists st' cs,
    resolve_client_for_team remote k st =
      (Raise (TeamNotFoundError
         ("Team '" +:+ k +:+ "' not found in any workspace. Searched workspaces: "
          +:+ Str.join ", " (workspace_names (self st))
          +:+ ". Use linear_list_workspaces to see available teams.")), st') /\
    Forall2 (fun w c => client_of st' w = Some c) (workspace_names (self st)) cs /\
    calls (world st') =
      calls (world st) ++ map (fun c => GetTeamByKey c (Str.upper k)) cs /\
    _team_cache (self st') = _team_cache (self st).
Proof.
  intros Hbuilt Hmiss Hall.
  destruct (probe_post (Str.upper k) (workspace_names (self st)) st)
    as (found & st' & probed & cs & Hp & Hg & Hb & _ & Hf2 & Hcalls & Hfound); [done.. |].
  rewrite (resolve_uncached k st Hmiss), Hp.
  destruct found as [c|].
  - destruct Hfound as (pre & w & post & Hsplit & _ & _ & Hown & _).
    rewrite Hsplit in Hall. apply Forall_app in Hall as [_ [Hw _]%Forall_cons].
    destruct (owns_misses_excl _ _ _ Hown Hw).
  - destruct Hfound as (-> & Hcache & _). exists st', cs. split_and!; try done.
    unfold team_not_found_message, workspace_names.
    rewrite (grows_workspaces _ _ Hg). repeat f_equal.
Qed.

(** *** The cache is an optimisation *)

Lemma get_client_with_cache w st m :
  get_client w (with_cache st m) =
    (fst (get_client w st), with_cache (snd (get_client w st)) m).
Proof.
  destruct (Dict.get (_workspaces (self st)) w) as [a|] eqn:Ha.
  - destruct (client_of st w) as [c|] eqn:Hc.
    + rewrite (get_client_cached w c st), (get_client_cached w c (with_cache st m));
        eauto.
    + by rewrite (get_client_fresh w a st), (get_client_fresh w a (with_cache st m)).
  - by rewrite (get_client_unknown w st), (get_client_unknown w (with_cache st m)).
Qed.

(** Probing does not read the cache. *)
Lemma probe_with_cache key names : forall st m,
  exists m',
    probe remote key names (with_cache st m) =
      (fst (probe remote key names st), with_cache (snd (probe remote key names st)) m').
Proof.
  induction names as [|w rest IH]; intros st m; [by exists m|].
  pose proof (get_client_with_cache w st m) as Hget'.
  destruct (get_client w st) as [[c|e] st1] eqn:Hget; simpl in Hget'.
  - destruct (is_team (team_reply remote c key))
      eqn:Hr.
    + rewrite (probe_cons_hit key w rest _ c _ Hget Hr),
        (probe_cons_hit key w rest _ c _ Hget' Hr).
      by eexists.
    + rewrite (probe_cons_miss key w rest _ c _ Hget Hr),
        (probe_cons_miss key w rest _ c _ Hget' Hr).
      apply (IH (logged st1 (GetTeamByKey c key)) m).
  - rewrite (probe_cons_raise key w rest _ e _ Hget),
      (probe_cons_raise key w rest _ e _ Hget').
    by exists m.
Qed.

(** C3. When every cache entry names a workspace that owns its key, and
    no key is owned by two workspaces, [resolve_client_for_team] has the
    same outcome from the state with its cache emptied: the same
    exception, or the client of the same workspace. *)
Theorem cache_is_only_an_optimisation k st :
  clients_built st ->
  (forall key w, _team_cache (self st) !! key = Some w -> owns remote (self st) w key) ->
  (forall key w1 w2,
     owns remote (self st) w1 key -> owns remote (self st) w2 key -> w1 = w2) ->
  same_resolution st
    (resolve_client_for_team remote k st)
    (resolve_client_for_team remote k (with_cache st ∅)).
Proof.
  intros Hbuilt Hvalid Huniq. set (key := Str.upper k).
  assert (Hempty : _team_cache (self (with_cache st ∅)) !! key = None)
    by apply lookup_empty.
  rewrite (resolve_uncached k _ Hempty). fold key.
  change (workspace_names (self (with_cache st ∅))) with (workspace_names (self st)).
  destruct (_team_cache (self st) !! key) as [w|] eqn:Hc.
  - (* hit: probing from the empty cache ends at the cached workspace *)
    rewrite (resolve_cached k w st Hc).
    pose proof (Hvalid key w Hc) as Hown. pose proof Hown as (a & Ha & _).
    assert (Hin : w ∈ workspace_names (self st)) by (apply dict_get_is_Some; eauto).
    apply list_elem_of_split_l in Hin as (pre & post & Hnames & Hfirst).
    assert (Hpre : Forall (fun x => misses remote (self st) x key) pre).
    { apply Forall_forall. intros x Hx.
      assert (Hxin : x ∈ workspace_names (self st))
        by (rewrite Hnames; apply elem_of_app; by left).
      apply dict_get_is_Some in Hxin as [ax Hax]. exists ax. split; [done|].
      destruct (is_team (lookup_reply remote (self st) ax key)) eqn:Hr; [|done].
      assert (x = w) as -> by (apply (Huniq key); [by exists ax | done]).
      contradiction. }
    destruct (probe_post key (workspace_names (self st)) (with_cache st ∅))
      as (found & st' & probed & cs & Hp & Hg & Hb & _ & _ & _ & Hfound); [done.. |].
    rewrite Hp.
    destruct found as [c'|]; cycle 1.
    { destruct Hfound as (_ & _ & Hall). rewrite Hnames in Hall.
      apply Forall_app in Hall as [_ [Hw _]%Forall_cons].
      destruct (owns_misses_excl _ _ _ Hown Hw). }
    destruct Hfound as (pre' & w' & post' & Hsplit & _ & Hpre' & Hown' & _ & Hc').
    rewrite Hnames in Hsplit.
    destruct (first_owner_unique _ _ _ _ _ _ _ _ Hsplit Hpre Hown Hpre' Hown')
      as (<- & <- & <-).
    destruct (get_client_configured w a st Ha)
      as (c & st1 & -> & Hc1 & _ & _ & _ & _ & [[Hold ->] | (Hnone & -> & ->)]).
    + left. simpl. f_equal.
      pose proof (grows_clients _ _ Hg w c Hold) as Hc''. congruence.
    + right. exists w, (fresh_client st a), c'. simpl. split_and!; try done.
      all: destruct (Hb w c' Hc') as (a' & Ha' & Hk & Hu & Ht).
      * rewrite (grows_workspaces _ _ Hg) in Ha'. simpl in Ha'. congruence.
      * by rewrite Hu, (grows_api_url _ _ Hg).
      * by rewrite Ht, (grows_timeout _ _ Hg).
  - (* miss: the same probing, which does not read the cache *)
    left. rewrite (resolve_uncached k st Hc). fold key.
    destruct (probe_with_cache key (workspace_names (self st)) st ∅) as (m' & ->).
    by destruct (probe remote key (workspace_names (self st)) st) as [[[c|]|e] st'].
Qed.

End Probing.

(** ** [get_client] *)


(** ** Bulk listing *)

Lemma with_cache_same st : with_cache st (_team_cache (self st)) = st.
Proof. by destruct st as [[] ?]. Qed.

Lemma insert_all_app m kvs kvs' :
  insert_all m (kvs ++ kvs') = insert_all (insert_all m kvs) kvs'.
Proof. apply fold_left_app. Qed.

Lemma insert_all_configured r kvs :
  Forall (fun kv => snd kv ∈ workspace_names r) kvs ->
  cache_configured r ->
  forall key w, insert_all (_team_cache r) kvs !! key = Some w -> w ∈ workspace_names r.
Proof.
  unfold cache_configured. generalize (_team_cache r) as m.
  induction kvs as [|[k v] kvs IH]; intros m Hall Hm; [done|].
  apply Forall_cons in Hall as [Hv Hall]. simpl. apply IH; [done|].
  intros key w. simpl. rewrite lookup_insert. case_decide; [by intros [= <-] | apply Hm].
Qed.

Lemma registry_inv_insert_all st kvs :
  Forall (fun kv => snd kv ∈ workspace_names (self st)) kvs ->
  registry_inv st ->
  registry_inv (with_cache st (insert_all (_team_cache (self st)) kvs)).
Proof.
  intros Hall [? Hcache ? ? ?]. split; try done.
  intros key w. by apply (insert_all_configured (self st)).
Qed.

Lemma dict_get_wf_elem {V} (d : Dict.t V) w v :
  Dict.wf d -> (w, v) ∈ d -> Dict.get d w = Some v.
Proof.
  unfold Dict.wf, Dict.keys. induction d as [|[k x] d IH]; simpl.
  - by intros _ ?%elem_of_nil.
  - intros [Hk Hd]%NoDup_cons [[= -> ->] | Hin]%elem_of_cons.
    + by rewrite String.eqb_refl.
    + destruct (String.eqb k w) eqn:E; [|by apply IH].
      apply String.eqb_eq in E. subst k. destruct Hk.
      apply list_elem_of_fmap. by exists (w, v).
Qed.

Section Listing.

Context (remote : Remote).

Lemma list_teams_step c st :
  list_teams remote c st =
    (Ok (teams_reply remote c),
     logged st (ListTeams c)).
Proof. reflexivity. Qed.

(** The inner loop: one report entry and one cache insertion per team. *)
Lemma record_teams_eq w ts : forall team_list st,
  record_teams w ts team_list st =
    (Ok (team_list ++ teams (entry_of w (Returns ts))),
     with_cache st (insert_all (_team_cache (self st)) (discovered w (Returns ts)))).
Proof.
  induction ts as [|t ts IH]; intros team_list st; simpl.
  - destruct st as [[] ?]. simpl. by rewrite app_nil_r.
  - unfold bind at 1, get_self. simpl. unfold bind at 1, put_team_cache.
    rewrite IH. simpl. by rewrite <- app_assoc.
Qed.

(** The outer loop over the workspaces still to visit. *)
Lemma list_loop_post l : forall st result,
  (forall w a, (w, a) ∈ l -> Dict.get (_workspaces (self st)) w = Some a) ->
  clients_built st ->
  exists st' cs,
    list_loop remote (map fst l) result st =
      (Ok (result ++
           map (fun wa => entry_of (fst wa) (listing_reply remote (self st) (snd wa))) l),
       st') /\
    grows st st' /\ clients_built st' /\
    (registry_inv st -> registry_inv st') /\
    _team_cache (self st') =
      insert_all (_team_cache (self st))
        (flat_map (fun wa => discovered (fst wa) (listing_reply remote (self st) (snd wa))) l) /\
    Forall2 (fun w c => client_of st' w = Some c) (map fst l) cs /\
    calls (world st') = calls (world st) ++ map ListTeams cs.
Proof.
  induction l as [|[w a] l IH]; intros st result Hl Hbuilt.
  { exists st, []. simpl. rewrite !app_nil_r. split_and!; auto using grows_refl. }
  assert (Ha : Dict.get (_workspaces (self st)) w = Some a) by (apply Hl; left).
  destruct (get_client_configured w a st Ha)
    as (c & st1 & Hget & Hc1 & Hg1 & Hcache1 & Hcalls1 & Hb1 & _).
  specialize (Hb1 Hbuilt).
  assert (Hinv1 : registry_inv st -> registry_inv st1).
  { intros Hinv. pose proof (get_client_inv w st Hinv) as H. by rewrite Hget in H. }
  assert (Hreply : teams_reply remote c = listing_reply remote (self st) a).
  { destruct (Hb1 w c Hc1) as (a1 & Ha1 & Hk & Hu1 & Ht1).
    destruct Hg1 as [Hws Hu Ht _ _]. rewrite Hws in Ha1.
    assert (a1 = a) as -> by congruence.
    unfold listing_reply, teams_reply. by rewrite Hk, Hu1, Ht1, Hu, Ht. }
  set (reply := listing_reply remote (self st) a) in *.
  pose (st2 := logged st1 (ListTeams c)).
  pose (st3 := with_cache st2 (insert_all (_team_cache (self st2)) (discovered w reply))).
  assert (Hg3 : grows st st3).
  { eapply grows_trans; [exact Hg1|]. eapply grows_trans; [apply grows_logged|].
    apply grows_with_cache. }
  assert (Hstep : list_loop remote (map fst ((w, a) :: l)) result st =
                  list_loop remote (map fst l) (result ++ [entry_of w reply]) st3).
  { simpl. unfold bind at 1. rewrite Hget. unfold bind at 1.
    rewrite list_teams_step, Hreply. fold st2. destruct reply as [ts|msg] eqn:Hr.
    - unfold bind at 1. rewrite record_teams_eq. reflexivity.
    - change st3 with (with_cache st2 (_team_cache (self st2))).
      by rewrite with_cache_same. }
  destruct (IH st3 (result ++ [entry_of w reply]))
    as (st' & cs & Hloop & Hg & Hb & Hinv & Hcache & Hf2 & Hcalls).
  { intros w' a' Hin. rewrite (grows_workspaces _ _ Hg3). apply Hl. by right. }
  { exact Hb1. }
  assert (Hcfg : forall a', listing_reply remote (self st3) a' = listing_reply remote (self st) a').
  { intros a'. unfold listing_reply.
    by rewrite (grows_api_url _ _ Hg3), (grows_timeout _ _ Hg3). }
  exists st', (c :: cs). rewrite Hstep, Hloop. split_and!.
  - rewrite <- app_assoc. cbn [map app fst snd].
    rewrite (map_ext _ (fun wa => entry_of wa.1 (listing_reply remote (self st) wa.2)));
      [done|].
    intros [w' a']. cbn [fst snd]. by rewrite Hcfg.
  - eapply grows_trans; [exact Hg3 | exact Hg].
  - exact Hb.
  - intros Hi. apply Hinv. apply (registry_inv_insert_all st2).
    + assert (Hw : w ∈ workspace_names (self st2)).
      { unfold workspace_names. simpl. rewrite (grows_workspaces _ _ Hg1).
        apply dict_get_is_Some. eauto. }
      unfold discovered. destruct reply as [ts|msg]; [|constructor].
      apply Forall_forall. intros kv [t [-> _]]%list_elem_of_fmap. exact Hw.
    + apply registry_inv_logged; auto.
  - rewrite Hcache. cbn [flat_map fst snd]. rewrite insert_all_app.
    change (_team_cache (self st3))
      with (insert_all (_team_cache (self st1)) (discovered w reply)).
    rewrite Hcache1.
    rewrite (flat_map_ext _
               (fun wa => discovered wa.1 (listing_reply remote (self st) wa.2)));
      [done|].
    intros [w' a']. cbn [fst snd]. by rewrite Hcfg.
  - constructor; [|exact Hf2]. apply (grows_clients _ _ Hg). exact Hc1.
  - rewrite Hcalls. simpl. rewrite Hcalls1, <- app_assoc. reflexivity.
Qed.

(** C8. The bulk listing returns one entry per configured workspace, in
    configuration order: the key, name and id of every team of a
    workspace whose listing succeeds, the error message and no team for a
    workspace whose listing raises a remote-client error. It never
    raises, it calls [list_teams] once on the client of each workspace,
    in order, and it inserts into the cache, in order, the upper-cased
    key of every team returned, mapped to the workspace listed. *)
Theorem list_all_reports_every_workspace st :
  Dict.wf (_workspaces (self st)) ->
  clients_built st ->
  exists st' cs,
    list_all_workspaces_with_teams remote st =
      (Ok {| workspaces :=
               map (fun wa => entry_of (fst wa) (listing_reply remote (self st) (snd wa)))
                 (_workspaces (self st)) |},
       st') /\
    _team_cache (self st') =
      insert_all (_team_cache (self st))
        (flat_map (fun wa => discovered (fst wa) (listing_reply remote (self st) (snd wa)))
           (_workspaces (self st))) /\
    Forall2 (fun w c => client_of st' w = Some c) (workspace_names (self st)) cs /\
    calls (world st') = calls (world st) ++ map ListTeams cs.
Proof.
  intros Hwf Hbuilt.
  destruct (list_loop_post (_workspaces (self st)) st [])
    as (st' & cs & Hloop & _ & _ & _ & Hcache & Hf2 & Hcalls); [|done|].
  { intros w a. by apply dict_get_wf_elem. }
  exists st', cs. split_and!; try done.
  unfold list_all_workspaces_with_teams, bind at 1, get_self.
  unfold bind at 1, Dict.keys. by rewrite Hloop.
Qed.

End Listing.

(** ** Shutdown *)

Lemma close_each_eq cs : forall st,
  close_each cs st =
    (Ok tt, {| self := self st;
               world := {| next_id := next_id (world st);
                           calls := calls (world st) ++ map Close cs |} |}).
Proof.
  induction cs as [|c cs IH]; intros st.
  - simpl. rewrite app_nil_r. by destruct st as [? []].
  - simpl. unfold bind at 1, close, log. rewrite IH. simpl.
    by rewrite <- app_assoc.
Qed.

Lemma close_all_eq st : close_all st = (Ok tt, released st).
Proof.
  unfold close_all, bind at 1, get_self. unfold bind at 1. by rewrite close_each_eq.
Qed.

Lemma registry_inv_released st : registry_inv st -> registry_inv (released st).
Proof.
  intros [? ? ? (n0 & Hle & Hids) ?]. split; simpl.
  - done.
  - done.
  - apply NoDup_nil_2.
  - exists n0. split; [done|]. unfold created in *. simpl.
    by rewrite closed_clients_app, closed_clients_Close, app_nil_r.
  - by intros w c.
Qed.

(** ** Reachable states *)

Section Reachability.

Context (remote : Remote).

Lemma registry_inv_init workspaces api_url timeout n0 :
  Dict.wf workspaces ->
  registry_inv {| self := __init__ workspaces api_url timeout;
                  world := {| next_id := n0; calls := [] |} |}.
Proof.
  intros Hwf. split; simpl.
  - exact Hwf.
  - intros key w. simpl. by intros ?%lookup_empty_Some.
  - apply NoDup_nil_2.
  - exists n0. split; [done|]. simpl. by rewrite Nat.sub_diag.
  - by intros w c.
Qed.

Lemma resolve_client_for_team_inv k st :
  registry_inv st -> registry_inv (snd (resolve_client_for_team remote k st)).
Proof.
  intros Hinv. destruct (_team_cache (self st) !! Str.upper k) as [w|] eqn:Hc.
  - rewrite (resolve_cached remote k w st Hc). by apply get_client_inv.
  - rewrite (resolve_uncached remote k st Hc).
    destruct (probe_post remote (Str.upper k) (workspace_names (self st)) st)
      as (found & st' & _ & _ & -> & _ & _ & Hinv' & _); [done | apply Hinv |].
    destruct found; simpl; auto.
Qed.

Lemma resolve_client_for_issue_inv i st :
  registry_inv st -> registry_inv (snd (resolve_client_for_issue remote i st)).
Proof.
  intros Hinv. unfold resolve_client_for_issue.
  destruct (issue_match i) as [[team_key digits]|]; [|done].
  by apply resolve_client_for_team_inv.
Qed.

Lemma list_all_workspaces_with_teams_inv st :
  registry_inv st -> registry_inv (snd (list_all_workspaces_with_teams remote st)).
Proof.
  intros Hinv.
  destruct (list_loop_post remote (_workspaces (self st)) st [])
    as (st' & _ & Hloop & _ & _ & Hinv' & _).
  { intros w a. apply dict_get_wf_elem, Hinv. }
  { apply Hinv. }
  unfold list_all_workspaces_with_teams, bind at 1, get_self.
  unfold bind at 1, Dict.keys. rewrite Hloop. auto.
Qed.

Lemma run_op_inv op st : registry_inv st -> registry_inv (run_op remote op st).
Proof.
  intros Hinv. destruct op; simpl;
    auto using get_client_inv, resolve_client_for_team_inv,
      resolve_client_for_issue_inv, list_all_workspaces_with_teams_inv.
  rewrite close_all_eq. by apply registry_inv_released.
Qed.

Lemma reachable_inv st : reachable remote st -> registry_inv st.
Proof.
  induction 1 as [workspaces api_url timeout n0 Hwf | op st _ IH].
  - by apply registry_inv_init.
  - by apply run_op_inv.
Qed.

(** C6. In every state reachable from the construction of a registry by
    the public operations, each workspace name stored as a value of the
    team-key cache is a key of the configured workspace mapping. *)
Theorem cache_values_are_configured st key w :
  reachable remote st ->
  _team_cache (self st) !! key = Some w ->
  w ∈ Dict.keys (_workspaces (self st)).
Proof. intros Hr%reachable_inv. apply (inv_cache st Hr). Qed.

(** C9. [close_all] returns after one [close] on each client the registry
    holds and leaves the registry with no client. Every client created so
    far has then been closed exactly once: the clients the log shows
    closed are the clients created so far, none of them twice. With no
    client held [close_all] changes nothing. Afterwards the registry is
    usable: [get_client] on a configured workspace constructs a client
    that is none of those created before, from the workspace's
    credential, and stores it. *)
Theorem close_all_releases_every_client st :
  registry_inv st ->
  exists st',
    close_all st = (Ok tt, st') /\
    _clients (self st') = [] /\
    calls (world st') = calls (world st) ++ map Close (Dict.values (_clients (self st))) /\
    closed_clients (calls (world st')) = created st /\
    NoDup (created st) /\
    (_clients (self st) = [] -> st' = st) /\
    (forall w api_key,
       Dict.get (_workspaces (self st)) w = Some api_key ->
       exists c st'',
         get_client w st' = (Ok c, st'') /\
         (c ∉ created st) /\ LinearClient._api_key c = api_key /\
         client_of st'' w = Some c).
Proof.
  intros Hinv. exists (released st). rewrite close_all_eq. split_and!; try done.
  - simpl. by rewrite closed_clients_app, closed_clients_Close.
  - apply created_NoDup, Hinv.
  - intros Hnil. unfold released. rewrite Hnil. simpl. rewrite app_nil_r.
    destruct st as [[] []]. simpl in *. by subst.
  - intros w a Ha.
    exists (fresh_client (released st) a),
      (install (released st) w (fresh_client (released st) a)).
    rewrite (get_client_fresh w a (released st)) by done.
    split_and!; try done.
    + intros Hin. pose proof (created_old st _ (inv_created st Hinv) Hin) as Hlt.
      simpl in Hlt. lia.
    + unfold client_of. simpl. by rewrite String.eqb_refl.
Qed.

(** C10. [close_all] leaves the workspace mapping, the endpoint, the
    timeout and the team-key cache of the registry as they were. So when a
    team key has been resolved, a resolution of it after [close_all]
    returns without any call on a remote client, and the client it
    returns is a new object, none of those created before. *)
Theorem close_all_keeps_team_cache :
  (forall st,
     _workspaces (self (snd (close_all st))) = _workspaces (self st) /\
     _api_url (self (snd (close_all st))) = _api_url (self st) /\
     _timeout (self (snd (close_all st))) = _timeout (self st) /\
     _team_cache (self (snd (close_all st))) = _team_cache (self st)) /\
  (forall st k c st1,
     registry_inv st ->
     resolve_client_for_team remote k st = (Ok c, st1) ->
     exists c' st3,
       resolve_client_for_team remote k (snd (close_all st1)) = (Ok c', st3) /\
       calls (world st3) = calls (world (snd (close_all st1))) /\
       LinearClient.id c' = next_id (world (snd (close_all st1))) /\
       (c' ∉ created st1) /\
       LinearClient._api_key c' = LinearClient._api_key c).
Proof.
  split; [intros st; by rewrite close_all_eq|].
  intros st k c st1 Hinv Hres.
  assert (Hinv1 : registry_inv st1).
  { pose proof (resolve_client_for_team_inv k st Hinv) as H. by rewrite Hres in H. }
  assert (Hcached : exists w, _team_cache (self st1) !! Str.upper k = Some w /\
                              client_of st1 w = Some c).
  { destruct (_team_cache (self st) !! Str.upper k) as [w|] eqn:Hc.
    - rewrite (resolve_cached remote k w st Hc) in Hres. exists w.
      destruct (Dict.get (_workspaces (self st)) w) as [a|] eqn:Ha.
      + destruct (get_client_configured w a st Ha)
          as (c0 & st0 & Hget & Hc0 & _ & Hcache & _).
        rewrite Hget in Hres. injection Hres as <- <-. by rewrite Hcache.
      + by rewrite (get_client_unknown w st Ha) in Hres.
    - rewrite (resolve_uncached remote k st Hc) in Hres.
      destruct (probe_post remote (Str.upper k) (workspace_names (self st)) st)
        as (found & st' & probed & cs & Hp & _ & _ & _ & _ & _ & Hfound);
        [done | apply Hinv |].
      rewrite Hp in Hres. destruct found as [c0|]; [|done].
      injection Hres as Hc0 Hst. subst c0 st'.
      destruct Hfound as (_ & w & _ & _ & _ & _ & _ & Hcache & Hc0).
      exists w. split; [|done]. rewrite Hcache. apply lookup_insert_eq. }
  destruct Hcached as (w & Hw & Hcw).
  destruct (inv_built st1 Hinv1 w c Hcw) as (a & Ha & Hkey & _).
  rewrite close_all_eq. simpl.
  exists (fresh_client (released st1) a),
    (install (released st1) w (fresh_client (released st1) a)).
  rewrite (resolve_cached remote k w (released st1)) by done.
  rewrite (get_client_fresh w a (released st1)) by done.
  split_and!; try done.
  intros Hin. pose proof (created_old st1 _ (inv_created st1 Hinv1) Hin) as Hlt.
  simpl in Hlt. lia.
Qed.

End Reachability.

(** ** Issue identifiers *)

Lemma append_empty_r s : s +:+ "" = s.
Proof.
  induction s as [|c s IH]; [done|].
  change (String c (s +:+ "") = String c s). by rewrite IH.
Qed.

Lemma append_assoc s1 s2 s3 : (s1 +:+ s2) +:+ s3 = s1 +:+ s2 +:+ s3.
Proof.
  induction s1 as [|c s1 IH]; [done|].
  change (String c ((s1 +:+ s2) +:+ s3) = String c (s1 +:+ s2 +:+ s3)). by rewrite IH.
Qed.

Lemma span_app p a b :
  Str.all_chars p a = true ->
  match b with String c _ => p c = false | EmptyString => True end ->
  Str.span p (a +:+ b) = (a, b).
Proof.
  intros Ha Hb. induction a as [|c a IH]; simpl in *.
  - destruct b as [|c b]; [done|]. simpl. by rewrite Hb.
  - apply andb_prop in Ha as [Hc Ha]. by rewrite Hc, (IH Ha).
Qed.

Lemma dash_not_alpha : Str.is_alpha "-"%char = false.
Proof. reflexivity. Qed.

Lemma newline_not_digit : Str.is_digit (ascii_of_nat 10) = false.
Proof. reflexivity. Qed.

(** The strict format, as a decomposition of the identifier. *)
Lemma strict_issue_format_iff i :
  strict_issue_format i = true <->
  exists letters digits,
    i = letters +:+ "-" +:+ digits /\
    letters <> "" /\ Str.all_chars Str.is_alpha letters = true /\
    digits <> "" /\ Str.all_chars Str.is_digit digits = true.
Proof.
  unfold strict_issue_format. split.
  - destruct (Str.span Str.is_alpha i) as [letters r1] eqn:Hs.
    apply span_spec in Hs as (-> & Hl & _).
    destruct letters as [|l letters]; [done|].
    destruct r1 as [|d r2]; [done|].
    destruct (Ascii.eqb_spec d "-"%char) as [->|Hd]; cycle 1.
    { destruct d as [[] [] [] [] [] [] [] []]; try done. }
    destruct r2 as [|d r2]; [done|]. intros Hd.
    by exists (String l letters), (String d r2).
  - intros (letters & digits & -> & Hl & Hla & Hd & Hda).
    rewrite (span_app Str.is_alpha letters ("-" +:+ digits) Hla dash_not_alpha).
    destruct letters; [done|]. simpl. by destruct digits.
Qed.

(** What [issue_match] accepts, and the groups it returns. *)
Lemma issue_match_iff i letters digits :
  issue_match i = Some (letters, digits) <->
  letters <> "" /\ Str.all_chars Str.is_alpha letters = true /\
  digits <> "" /\ Str.all_chars Str.is_digit digits = true /\
  (i = letters +:+ "-" +:+ digits \/ i = letters +:+ "-" +:+ digits +:+ Str.newline).
Proof.
  unfold issue_match. split.
  - destruct (Str.span Str.is_alpha i) as [l r1] eqn:Hs.
    apply span_spec in Hs as (-> & Hl & _).
    destruct l as [|l0 l]; [done|].
    destruct r1 as [|d r2]; [done|].
    destruct (Ascii.eqb_spec d "-"%char) as [->|Hd]; cycle 1.
    { destruct d as [[] [] [] [] [] [] [] []]; try done. }
    destruct (Str.span Str.is_digit r2) as [ds r3] eqn:Hs2.
    apply span_spec in Hs2 as (-> & Hds & _).
    destruct ds as [|d0 ds]; [done|].
    unfold at_dollar.
    destruct (String.eqb_spec r3 "") as [->|_].
    + intros [= <- <-]. split_and!; try done. left.
      by rewrite append_empty_r.
    + destruct (String.eqb_spec r3 Str.newline) as [->|_]; [|done].
      intros [= <- <-]. split_and!; try done. by right.
  - intros (Hl & Hla & Hd & Hda & [-> | ->]).
    + rewrite (span_app Str.is_alpha letters ("-" +:+ digits) Hla dash_not_alpha).
      pose proof (span_app Str.is_digit digits "" Hda I) as Hsp.
      rewrite append_empty_r in Hsp.
      change ("-" +:+ digits) with (String "-"%char digits).
      destruct letters; [done|]. cbv iota beta. rewrite Hsp.
      by destruct digits.
    + rewrite (span_app Str.is_alpha letters ("-" +:+ digits +:+ Str.newline)
                 Hla dash_not_alpha).
      change ("-" +:+ digits +:+ Str.newline)
        with (String "-"%char (digits +:+ Str.newline)).
      destruct letters; [done|]. cbv iota beta.
      rewrite (span_app Str.is_digit digits Str.newline Hda newline_not_digit).
      by destruct digits.
Qed.

(** The identifiers [issue_match] rejects are those that have the strict
    format neither as they are nor once a final newline is removed. *)
Lemma issue_match_None_iff i :
  issue_match i = None <->
  strict_issue_format i = false /\
  forall s, i = s +:+ Str.newline -> strict_issue_format s = false.
Proof.
  split.
  - intros Hnone. split.
    + destruct (strict_issue_format i) eqn:Hs; [|done].
      apply strict_issue_format_iff in Hs as (l & d & -> & Hl & Hla & Hd & Hda).
      assert (issue_match (l +:+ "-" +:+ d) = Some (l, d)) as Hm
        by (apply issue_match_iff; auto 6).
      congruence.
    + intros s ->. destruct (strict_issue_format s) eqn:Hs; [|done].
      apply strict_issue_format_iff in Hs as (l & d & -> & Hl & Hla & Hd & Hda).
      assert (issue_match ((l +:+ "-" +:+ d) +:+ Str.newline) = Some (l, d)) as Hm.
      { apply issue_match_iff. split_and!; try done. right.
        by rewrite !append_assoc. }
      congruence.
  - intros [Hs Hnl]. destruct (issue_match i) as [[l d]|] eqn:Hm; [|done].
    apply issue_match_iff in Hm as (Hl & Hla & Hd & Hda & [-> | ->]).
    + assert (strict_issue_format (l +:+ "-" +:+ d) = true) as Ht
        by (apply strict_issue_format_iff; eauto 8).
      congruence.
    + assert (strict_issue_format (l +:+ "-" +:+ d) = true) as Ht
        by (apply strict_issue_format_iff; eauto 8).
      rewrite (Hnl (l +:+ "-" +:+ d)) in Ht; [done|].
      by rewrite !append_assoc.
Qed.

Section Issues.

Context (remote : Remote).

(** A rejected identifier raises at once: no state change, no call. *)
Lemma resolve_client_for_issue_invalid i st :
  issue_match i = None ->
  resolve_client_for_issue remote i st =
    (Raise (ValueError (invalid_identifier_message i)), st).
Proof. intros H. unfold resolve_client_for_issue. by rewrite H. Qed.

(** An identifier of the strict format resolves as its letter run. *)
Lemma resolve_client_for_issue_strict i st :
  strict_issue_format i = true ->
  resolve_client_for_issue remote i st =
    resolve_client_for_team remote (fst (Str.span Str.is_alpha i)) st.
Proof.
  intros (l & d & -> & Hl & Hla & Hd & Hda)%strict_issue_format_iff.
  assert (issue_match (l +:+ "-" +:+ d) = Some (l, d)) as Hm
    by (apply issue_match_iff; auto 6).
  unfold resolve_client_for_issue. rewrite Hm.
  by rewrite (span_app Str.is_alpha l ("-" +:+ d) Hla dash_not_alpha).
Qed.

(** So does the same identifier followed by a newline. *)
Lemma resolve_client_for_issue_newline i st :
  strict_issue_format i = true ->
  resolve_client_for_issue remote (i +:+ Str.newline) st =
    resolve_client_for_issue remote i st.
Proof.
  intros (l & d & -> & Hl & Hla & Hd & Hda)%strict_issue_format_iff.
  assert (issue_match (l +:+ "-" +:+ d) = Some (l, d)) as Hm
    by (apply issue_match_iff; auto 6).
  assert (issue_match ((l +:+ "-" +:+ d) +:+ Str.newline) = Some (l, d)) as Hm'.
  { apply issue_match_iff. split_and!; try done. right.
    by rewrite !append_assoc. }
  unfold resolve_client_for_issue. by rewrite Hm, Hm'.
Qed.

(** C5, at the identifier ["FAVRES-123\n"]. It does not have the format
    [^[A-Za-z]+-\d+$] read strictly, since a newline follows the digits;
    yet [resolve_client_for_issue] raises no format error on it: it
    resolves the team key FAVRES, and on the registry of the tests it
    looks the key up remotely and returns the client of [ios]. *)
Theorem issue_with_trailing_newline_is_resolved :
  strict_issue_format ("FAVRES-123" +:+ Str.newline) = false /\
  (forall st,
     resolve_client_for_issue remote ("FAVRES-123" +:+ Str.newline) st =
       resolve_client_for_team remote "FAVRES" st) /\
  exists c st',
    resolve_client_for_issue Fixture.remote ("FAVRES-123" +:+ Str.newline) Fixture.start
      = (Ok c, st') /\
    LinearClient._api_key c = "lin_api_ios" /\
    calls (world st') = [GetTeamByKey c "FAVRES"].
Proof.
  split_and!; [reflexivity | reflexivity |].
  eexists _, _. split_and!; [vm_compute; reflexivity | reflexivity | reflexivity].
Qed.

End Issues.

(** ** The registry of the tests *)

Example workspace_names_fixture :
  workspace_names (self Fixture.start) = ["ios"; "backend"].
Proof. reflexivity. Qed.

Example upper_back : Str.upper "back" = "BACK".
Proof. reflexivity. Qed.

Example issue_match_favres : issue_match "FAVRES-123" = Some ("FAVRES", "123").
Proof. reflexivity. Qed.

Example issue_match_bad_format : issue_match "bad-format-here" = None.
Proof. reflexivity. Qed.

Example issue_match_no_dash : issue_match "NODASH" = None.
Proof. reflexivity. Qed.

Example issue_match_leading_space : issue_match " FAVRES-123" = None.
Proof. reflexivity. Qed.

Example issue_match_two_newlines :
  issue_match ("FAVRES-123" +:+ Str.newline +:+ Str.newline) = None.
Proof. reflexivity. Qed.

(** [test_found_in_second_workspace] *)
Example found_in_second_workspace :
  exists c, fst (resolve_client_for_team Fixture.remote "BACK" Fixture.start) = Ok c /\
            LinearClient._api_key c = "lin_api_backend".
Proof. eexists. split; [vm_compute; reflexivity | reflexivity]. Qed.

(** [test_uses_cache_on_second_call] *)
Example uses_cache_on_second_call :
  let st1 := snd (resolve_client_for_team Fixture.remote "FAVRES" Fixture.start) in
  let st2 := snd (resolve_client_for_team Fixture.remote "FAVRES" st1) in
  length (calls (world st1)) = 1 /\ calls (world st2) = calls (world st1).
Proof. vm_compute. done. Qed.

Lemma fixture_wf : Dict.wf Fixture.workspaces.
Proof.
  unfold Dict.wf. simpl. apply NoDup_cons_2; [|apply NoDup_singleton].
  by intros [=]%list_elem_of_singleton.
Qed.

Lemma fixture_built : clients_built Fixture.start.
Proof. by intros w c. Qed.

Lemma fixture_reachable_start remote : reachable remote Fixture.start.
Proof. apply reachable_init, fixture_wf. Qed.

(** In the service of the tests no key has two owners. *)
Lemma fixture_unique_owner m key w1 w2 :
  owns Fixture.remote (self (with_cache Fixture.start m)) w1 key ->
  owns Fixture.remote (self (with_cache Fixture.start m)) w2 key ->
  w1 = w2.
Proof.
  assert (Hcases : forall w, owns Fixture.remote (self (with_cache Fixture.start m)) w key ->
            w = "ios" /\ key = "FAVRES" \/ w = "backend" /\ key = "BACK").
  { intros w (a & Ha & Hr).
    change (Dict.get Fixture.workspaces w = Some a) in Ha.
    unfold Fixture.workspaces in Ha. cbn [Dict.get] in Ha.
    destruct (String.eqb_spec "ios" w) as [<-|_].
    - injection Ha as <-. left. split; [done|].
      unfold lookup_reply in Hr. cbn [Fixture.remote remote_team_by_key] in Hr.
      change (String.eqb "lin_api_ios" "lin_api_ios") with true in Hr.
      cbn [andb] in Hr.
      destruct (String.eqb_spec key "FAVRES"); [done | simpl in Hr; discriminate].
    - destruct (String.eqb_spec "backend" w) as [<-|_]; [|discriminate Ha].
      injection Ha as <-. right. split; [done|].
      unfold lookup_reply in Hr. cbn [Fixture.remote remote_team_by_key] in Hr.
      change (String.eqb "lin_api_backend" "lin_api_ios") with false in Hr.
      change (String.eqb "lin_api_backend" "lin_api_backend") with true in Hr.
      cbn [andb] in Hr.
      destruct (String.eqb_spec key "BACK"); [done | simpl in Hr; discriminate]. }
  intros [[-> ->] | [-> ->]]%Hcases [[-> H] | [-> H]]%Hcases; done.
Qed.

Lemma resolve_probes_in_configuration_order_witness :
  exists c st' cs,
    resolve_client_for_team Fixture.remote_ios_down "back" Fixture.start = (Ok c, st') /\
    _team_cache (self st') = <["BACK" := "backend"]> ∅ /\
    client_of st' "backend" = Some c /\
    Dict.get Fixture.workspaces "backend" = Some (LinearClient._api_key c) /\
    Forall2 (fun w' c' => client_of st' w' = Some c') ["ios"; "backend"] cs /\
    calls (world st') = map (fun c' => GetTeamByKey c' "BACK") cs.
Proof.
  apply (resolve_probes_in_configuration_order Fixture.remote_ios_down
           "back" Fixture.start ["ios"] "backend" []).
  - exact fixture_built.
  - reflexivity.
  - reflexivity.
  - constructor; [|constructor]. exists "lin_api_ios". split; reflexivity.
  - exists "lin_api_backend". split; reflexivity.
Defined.

Lemma resolve_cache_hit_no_remote_call_witness :
  let st := with_cache Fixture.start (<["FAVRES" := "ios"]> ∅) in
  resolve_client_for_team Fixture.remote "FAVRES" st = get_client "ios" st /\
  calls (world (snd (resolve_client_for_team Fixture.remote "FAVRES" st))) = [].
Proof.
  apply (resolve_cache_hit_no_remote_call Fixture.remote "FAVRES" "ios"
           (with_cache Fixture.start (<["FAVRES" := "ios"]> ∅))).
  reflexivity.
Defined.

Lemma cache_is_only_an_optimisation_witness :
  same_resolution (with_cache Fixture.start (<["BACK" := "backend"]> ∅))
    (resolve_client_for_team Fixture.remote "back"
       (with_cache Fixture.start (<["BACK" := "backend"]> ∅)))
    (resolve_client_for_team Fixture.remote "back" (with_cache Fixture.start ∅)).
Proof.
  apply (cache_is_only_an_optimisation Fixture.remote "back"
           (with_cache Fixture.start (<["BACK" := "backend"]> ∅))).
  - by intros w c.
  - intros key w H.
    change (<["BACK" := "backend"]> (∅ : gmap string string) !! key = Some w) in H.
    apply lookup_insert_Some in H as [[<- <-] | [_ H]];
      [|by rewrite lookup_empty in H].
    exists "lin_api_backend". split; reflexivity.
  - apply fixture_unique_owner.
Defined.

Lemma resolve_team_not_found_witness :
  exists st' cs,
    resolve_client_for_team Fixture.remote_ios_down "UNKNOWN" Fixture.start =
      (Raise (TeamNotFoundError
         ("Team 'UNKNOWN' not found in any workspace. Searched workspaces: ios, backend"
          +:+ ". Use linear_list_workspaces to see available teams.")), st') /\
    Forall2 (fun w c => client_of st' w = Some c) ["ios"; "backend"] cs /\
    calls (world st') = map (fun c => GetTeamByKey c "UNKNOWN") cs /\
    _team_cache (self st') = ∅.
Proof.
  apply (resolve_team_not_found Fixture.remote_ios_down "UNKNOWN" Fixture.start).
  - exact fixture_built.
  - reflexivity.
  - constructor; [|constructor; [|constructor]].
    + exists "lin_api_ios". split; reflexivity.
    + exists "lin_api_backend". split; reflexivity.
Defined.

Lemma cache_values_are_configured_witness :
  "backend" ∈ Dict.keys Fixture.workspaces.
Proof.
  apply (cache_values_are_configured Fixture.remote
           (run_op Fixture.remote (OpResolveTeam "back") Fixture.start) "BACK" "backend").
  - apply reachable_step, fixture_reachable_start.
  - vm_compute. reflexivity.
Defined.


Lemma list_all_reports_every_workspace_witness :
  exists st' cs,
    list_all_workspaces_with_teams Fixture.remote_ios_down Fixture.start =
      (Ok {| workspaces :=
               [ {| workspace := "ios"; error := Some "401 Unauthorized"; teams := [] |};
                 {| workspace := "backend"; error := None;
                    teams := [ {| entry_key := "BACK"; entry_name := "Backend";
                                  entry_id := "team-2" |} ] |} ] |},
       st') /\
    _team_cache (self st') = <["BACK" := "backend"]> ∅ /\
    Forall2 (fun w c => client_of st' w = Some c) ["ios"; "backend"] cs /\
    calls (world st') = map ListTeams cs.
Proof.
  apply (list_all_reports_every_workspace Fixture.remote_ios_down Fixture.start).
  - exact fixture_wf.
  - exact fixture_built.
Defined.

Lemma close_all_releases_every_client_witness :
  let st := run_op Fixture.remote OpListAll Fixture.start in
  exists st',
    close_all st = (Ok tt, st') /\
    _clients (self st') = [] /\
    calls (world st') = calls (world st) ++ map Close (Dict.values (_clients (self st))) /\
    closed_clients (calls (world st')) = created st /\
    NoDup (created st) /\
    (_clients (self st) = [] -> st' = st) /\
    (forall w api_key,
       Dict.get (_workspaces (self st)) w = Some api_key ->
       exists c st'',
         get_client w st' = (Ok c, st'') /\
         (c ∉ created st) /\ LinearClient._api_key c = api_key /\
         client_of st'' w = Some c).
Proof.
  apply (close_all_releases_every_client (run_op Fixture.remote OpListAll Fixture.start)).
  apply (reachable_inv Fixture.remote), reachable_step, fixture_reachable_start.
Defined.

Lemma close_all_keeps_team_cache_witness :
  let st1 := snd (resolve_client_for_team Fixture.remote "back" Fixture.start) in
  exists c' st3,
    resolve_client_for_team Fixture.remote "back" (snd (close_all st1)) = (Ok c', st3) /\
    calls (world st3) = calls (world (snd (close_all st1))) /\
    LinearClient.id c' = next_id (world (snd (close_all st1))) /\
    (c' ∉ created st1) /\
    LinearClient._api_key c' = "lin_api_backend".
Proof.
  apply (proj2 (close_all_keeps_team_cache Fixture.remote) Fixture.start "back"
           (fresh_client (install Fixture.start "ios" (fresh_client Fixture.start "lin_api_ios"))
              "lin_api_backend")).
  - apply (reachable_inv Fixture.remote), fixture_reachable_start.
  - vm_compute. reflexivity.
Defined.

(** ** Further properties of the registry *)

Lemma same_config_refl st : same_config st st.
Proof. done. Qed.

Lemma grows_same_config st st' : grows st st' -> same_config st st'.
Proof. intros [? ? ? _ _]. done. Qed.

Lemma upper_char_idempotent c : Str.upper_char (Str.upper_char c) = Str.upper_char c.
Proof. by destruct c as [[] [] [] [] [] [] [] []]. Qed.

Lemma upper_idempotent s : Str.upper (Str.upper s) = Str.upper s.
Proof.
  induction s as [|c s IH]; simpl; [done|]. by rewrite upper_char_idempotent, IH.
Qed.

(** [get_client] in any state: what it returns and what it leaves alone. *)
Lemma get_client_any w st :
  exists r st',
    get_client w st = (r, st') /\
    grows st st' /\
    _team_cache (self st') = _team_cache (self st) /\
    calls (world st') = calls (world st) /\
    (next_id (world st') <= S (next_id (world st)))%nat /\
    (forall w', w' <> w -> client_of st' w' = client_of st w') /\
    (forall c, client_of st w = Some c -> st' = st) /\
    match r with
    | Ok c => is_Some (Dict.get (_workspaces (self st)) w) /\ client_of st' w = Some c
    | Raise e =>
        e = KeyError (unknown_workspace_message (self st) w) /\ st' = st /\
        Dict.get (_workspaces (self st)) w = None
    end.
Proof.
  destruct (Dict.get (_workspaces (self st)) w) as [a|] eqn:Ha.
  - destruct (get_client_configured w a st Ha)
      as (c & st' & Hget & Hc & Hg & Hcache & Hcalls & _ & [[Hold ->] | (Hn & -> & ->)]).
    + exists (Ok c), st. split_and!; eauto; try done; try lia.
    + exists (Ok (fresh_client st a)), (install st w (fresh_client st a)).
      split_and!; eauto; try done; try (simpl; lia).
      * intros w' Hne. unfold client_of. simpl. by apply dict_get_set_ne.
      * intros c. congruence.
  - exists (Raise (KeyError (unknown_workspace_message (self st) w))), st.
    rewrite (get_client_unknown w st Ha).
    split_and!; auto using grows_refl; try done; try lia.
Qed.

Section Resolution.

Context (remote : Remote).

(** The probing loop from any state and over any names. *)
Lemma probe_any key names : forall st,
  exists r st' cs,
    probe remote key names st = (r, st') /\
    grows st st' /\
    calls (world st') = calls (world st) ++ map (fun c => GetTeamByKey c key) cs /\
    length cs <= length names /\
    match r with
    | Ok (Some c) =>
        exists w, w ∈ names /\ is_Some (Dict.get (_workspaces (self st)) w) /\
                  client_of st' w = Some c /\
                  _team_cache (self st') = <[key := w]> (_team_cache (self st))
    | Ok None => _team_cache (self st') = _team_cache (self st)
    | Raise e =>
        _team_cache (self st') = _team_cache (self st) /\
        exists w, w ∈ names /\ Dict.get (_workspaces (self st)) w = None /\
                  e = KeyError (unknown_workspace_message (self st) w)
    end.
Proof.
  induction names as [|w rest IH]; intros st.
  { exists (Ok None), st, []. simpl. rewrite app_nil_r. split_and!; auto using grows_refl. }
  destruct (get_client_any w st)
    as ([c|e] & st1 & Hget & Hg1 & Hcache1 & Hcalls1 & _ & _ & _ & Hr).
  - destruct Hr as [Hcfg Hc1].
    pose (st2 := logged st1 (GetTeamByKey c key)).
    assert (Hg2 : grows st st2)
      by (eapply grows_trans; [exact Hg1 | apply grows_logged]).
    destruct (is_team (team_reply remote c key)) eqn:Hteam.
    + rewrite (probe_cons_hit remote key w rest st c st1 Hget Hteam).
      exists (Ok (Some c)), (with_cache st2 (<[key := w]> (_team_cache (self st1)))), [c].
      split_and!; try done.
      * eapply grows_trans; [exact Hg2 | apply grows_with_cache].
      * simpl. by rewrite Hcalls1.
      * simpl. lia.
      * exists w. split_and!; [left | done | done | simpl; by rewrite Hcache1].
    + rewrite (probe_cons_miss remote key w rest st c st1 Hget Hteam). fold st2.
      destruct (IH st2) as (r & st' & cs & -> & Hg & Hcalls & Hlen & Hr).
      exists r, st', (c :: cs). split_and!; try done.
      * eapply grows_trans; [exact Hg2 | exact Hg].
      * rewrite Hcalls. simpl. by rewrite Hcalls1, <- app_assoc.
      * simpl. lia.
      * destruct Hg2 as [Hws _ _ _ _]. simpl in Hws.
        destruct r as [[c'|]|e].
        -- destruct Hr as (w' & Hin & Hcfg' & Hc' & Hcache). exists w'.
           split_and!; [by right | by rewrite <- Hws | done |].
           rewrite Hcache. simpl. by rewrite Hcache1.
        -- rewrite Hr. simpl. exact Hcache1.
        -- destruct Hr as (Hcache & w' & Hin & Hnone & ->). split.
           { rewrite Hcache. simpl. exact Hcache1. }
           exists w'. split_and!; [by right | by rewrite <- Hws |].
           unfold unknown_workspace_message. simpl. by rewrite Hws.
  - destruct Hr as (-> & -> & Hnone).
    rewrite (probe_cons_raise remote key w rest st _ st Hget).
    exists (Raise (KeyError (unknown_workspace_message (self st) w))), st, [].
    simpl. rewrite app_nil_r. split_and!; auto using grows_refl; [lia|].
    exists w. split_and!; [left | done | done].
Qed.

(** Over the configured names the loop does not raise. *)
Lemma probe_names_any key st :
  exists found st' cs,
    probe remote key (workspace_names (self st)) st = (Ok found, st') /\
    grows st st' /\
    calls (world st') = calls (world st) ++ map (fun c => GetTeamByKey c key) cs /\
    length cs <= length (workspace_names (self st)) /\
    match found with
    | Some c =>
        exists w, w ∈ workspace_names (self st) /\ client_of st' w = Some c /\
                  _team_cache (self st') = <[key := w]> (_team_cache (self st))
    | None => _team_cache (self st') = _team_cache (self st)
    end.
Proof.
  destruct (probe_any key (workspace_names (self st)) st)
    as (r & st' & cs & Hp & Hg & Hcalls & Hlen & Hr).
  destruct r as [found|e].
  - exists found, st', cs. split_and!; try done.
    destruct found as [c|]; [|done].
    destruct Hr as (w & Hin & _ & Hc & Hcache). by exists w.
  - destruct Hr as (_ & w & Hin & Hnone & _).
    apply dict_get_None in Hnone. contradiction.
Qed.

End Resolution.

Lemma insert_all_keeps_keys kvs : forall (m : gmap string string) key,
  is_Some (m !! key) -> is_Some (insert_all m kvs !! key).
Proof.
  induction kvs as [|[k v] kvs IH]; intros m key Hm; [done|].
  simpl. apply IH. rewrite lookup_insert. case_decide; [by eexists | done].
Qed.

Lemma cache_keys_kept_trans st1 st2 st3 :
  cache_keys_kept st1 st2 -> cache_keys_kept st2 st3 -> cache_keys_kept st1 st3.
Proof. intros H12 H23 key Hk. by apply H23, H12. Qed.

Lemma cache_kept_keys st st' : cache_kept st st' -> cache_keys_kept st st'.
Proof. intros H key [w Hw]. exists w. by apply H. Qed.

Lemma cache_eq_kept st st' :
  _team_cache (self st') = _team_cache (self st) -> cache_kept st st'.
Proof. intros H key w. by rewrite H. Qed.

Section Frames.

Context (remote : Remote).

(** The bulk loop from any state and over any names. *)
Lemma list_loop_any names : forall result st,
  exists r st',
    list_loop remote names result st = (r, st') /\
    grows st st' /\ cache_keys_kept st st'.
Proof.
  induction names as [|w rest IH]; intros result st.
  { exists (Ok result), st. split_and!; auto using grows_refl. by intros key. }
  destruct (get_client_any w st)
    as ([c|e] & st1 & Hget & Hg1 & Hcache1 & _ & _ & _ & _ & Hr).
  - pose (st2 := logged st1 (ListTeams c)).
    pose (st3 := with_cache st2
                   (insert_all (_team_cache (self st2)) (discovered w (teams_reply remote c)))).
    assert (Hstep : list_loop remote (w :: rest) result st =
                    list_loop remote rest
                      (result ++ [entry_of w (teams_reply remote c)]) st3).
    { simpl. unfold bind at 1. rewrite Hget. unfold bind at 1.
      rewrite list_teams_step. fold st2. unfold st3.
      destruct (teams_reply remote c) as [ts|msg].
      - unfold bind at 1. rewrite record_teams_eq. reflexivity.
      - change (with_cache st2 (insert_all (_team_cache (self st2)) (discovered w _)))
          with (with_cache st2 (_team_cache (self st2))).
        by rewrite with_cache_same. }
    destruct (IH (result ++ [entry_of w (teams_reply remote c)]) st3)
      as (r & st' & Hloop & Hg & Hk).
    exists r, st'. rewrite Hstep, Hloop. split_and!; [done | |].
    + eapply grows_trans; [exact Hg1|]. eapply grows_trans; [apply grows_logged|].
      eapply grows_trans; [apply grows_with_cache | exact Hg].
    + eapply cache_keys_kept_trans; [|exact Hk].
      intros key Hkey. simpl. apply insert_all_keeps_keys. by rewrite Hcache1.
  - destruct Hr as (-> & -> & _).
    exists (Raise (KeyError (unknown_workspace_message (self st) w))), st.
    split_and!; auto using grows_refl; [|by intros key].
    simpl. unfold bind at 1. by rewrite Hget.
Qed.

(** What each branch of [resolve_client_for_team] does to the cache and
    to the log. *)
Lemma resolve_any k st :
  exists r st' cs,
    resolve_client_for_team remote k st = (r, st') /\
    grows st st' /\
    calls (world st') =
      calls (world st) ++ map (fun c => GetTeamByKey c (Str.upper k)) cs /\
    length cs <= length (workspace_names (self st)) /\
    match r with
    | Ok c =>
        exists w, client_of st' w = Some c /\
                  _team_cache (self st') !! Str.upper k = Some w /\
                  is_Some (Dict.get (_workspaces (self st)) w) /\
                  (_team_cache (self st') = _team_cache (self st) \/
                   _team_cache (self st) !! Str.upper k = None /\
                   _team_cache (self st') = <[Str.upper k := w]> (_team_cache (self st)))
    | Raise e =>
        _team_cache (self st') = _team_cache (self st) /\
        (e = TeamNotFoundError (team_not_found_message (self st) k) /\
         _team_cache (self st) !! Str.upper k = None \/
         exists w, _team_cache (self st) !! Str.upper k = Some w /\
                   Dict.get (_workspaces (self st)) w = None /\
                   e = KeyError (unknown_workspace_message (self st) w) /\ st' = st)
    end.
Proof.
  destruct (_team_cache (self st) !! Str.upper k) as [w|] eqn:Hc.
  - rewrite (resolve_cached remote k w st Hc).
    destruct (get_client_any w st)
      as (r & st' & -> & Hg & Hcache & Hcalls & _ & _ & _ & Hr).
    exists r, st', []. simpl. rewrite app_nil_r. split_and!; try done; [lia|].
    destruct r as [c|e].
    + destruct Hr as [Hcfg Hcl]. exists w. split_and!; try done; [|by left].
      by rewrite Hcache.
    + destruct Hr as (-> & -> & Hnone). split; [done|]. right. by exists w.
  - rewrite (resolve_uncached remote k st Hc).
    destruct (probe_names_any remote (Str.upper k) st)
      as (found & st' & cs & -> & Hg & Hcalls & Hlen & Hfound).
    destruct found as [c|].
    + destruct Hfound as (w & Hin & Hcl & Hcache).
      exists (Ok c), st', cs. split_and!; try done.
      exists w. split_and!; try done.
      * rewrite Hcache. apply lookup_insert_eq.
      * by apply dict_get_is_Some.
      * by right.
    + exists (Raise (TeamNotFoundError (team_not_found_message (self st') k))), st', cs.
      split_and!; try done. left. split; [|done].
      unfold team_not_found_message. by rewrite (grows_workspaces _ _ Hg).
Qed.

(** X1. No public operation changes the configuration: the workspace
    mapping, the endpoint and the timeout after it are those before it,
    and so are the workspace names, whether the operation returns or
    raises. *)
Theorem public_operations_keep_configuration op st :
  _workspaces (self (run_op remote op st)) = _workspaces (self st) /\
  _api_url (self (run_op remote op st)) = _api_url (self st) /\
  _timeout (self (run_op remote op st)) = _timeout (self st) /\
  workspace_names (self (run_op remote op st)) = workspace_names (self st).
Proof.
  assert (Hcfg : same_config st (run_op remote op st)).
  { destruct op; simpl.
    - done.
    - destruct (get_client_any workspace_name st) as (r & st' & -> & Hg & _).
      by apply grows_same_config.
    - destruct (resolve_any team_key st) as (r & st' & cs & -> & Hg & _).
      by apply grows_same_config.
    - unfold resolve_client_for_issue.
      destruct (issue_match identifier) as [[team_key digits]|]; [|done].
      destruct (resolve_any team_key st) as (r & st' & cs & -> & Hg & _).
      by apply grows_same_config.
    - unfold list_all_workspaces_with_teams, bind at 1, get_self. unfold bind at 1.
      destruct (list_loop_any (Dict.keys (_workspaces (self st))) [] st)
        as (r & st' & -> & Hg & _).
      destruct r; by apply grows_same_config.
    - by rewrite close_all_eq. }
  destruct Hcfg as (Hws & Hu & Ht). unfold workspace_names. by rewrite Hws.
Qed.

(** X2. No public operation removes a key from the team-key cache, and
    apart from the bulk listing none changes the workspace a key is
    mapped to. *)
Theorem cache_never_forgets op st :
  cache_keys_kept st (run_op remote op st) /\
  (op <> OpListAll -> cache_kept st (run_op remote op st)).
Proof.
  assert (Hres : forall k, cache_kept st (snd (resolve_client_for_team remote k st))).
  { intros k. destruct (resolve_any k st) as (r & st' & cs & -> & _ & _ & _ & Hr).
    simpl. destruct r as [c|e].
    - destruct Hr as (w & _ & _ & _ & [Heq | [Hnone Hins]]); [by apply cache_eq_kept|].
      intros key w' Hkey. rewrite Hins, lookup_insert_ne; [done|]. intros <-. congruence.
    - destruct Hr as [Heq _]. by apply cache_eq_kept. }
  assert (Hget : forall w, cache_kept st (snd (get_client w st))).
  { intros w. destruct (get_client_any w st) as (r & st' & -> & _ & Hcache & _).
    by apply cache_eq_kept. }
  destruct op; simpl.
  - split; [by intros key | by intros _ key w].
  - split; [apply cache_kept_keys|]; auto.
  - split; [apply cache_kept_keys|]; auto.
  - unfold resolve_client_for_issue.
    destruct (issue_match identifier) as [[team_key digits]|].
    + split; [apply cache_kept_keys|]; auto.
    + split; [by intros key | by intros _ key w].
  - split; [|done].
    unfold list_all_workspaces_with_teams, bind at 1, get_self. unfold bind at 1.
    destruct (list_loop_any (Dict.keys (_workspaces (self st))) [] st)
      as (r & st' & -> & _ & Hk).
    by destruct r.
  - rewrite close_all_eq. split; [by intros key | by intros _ key w].
Qed.

End Frames.

Section ResolutionProperties.

Context (remote : Remote).

(** X3. [resolve_client_for_team] caches successes only. When it returns
    a client, the upper-cased key is in the cache afterwards, mapped to a
    workspace whose client is the one returned, and the cache is the old
    one or the old one with that single entry added for a key it lacked.
    When it raises, the cache is the old one. *)
Theorem resolve_caches_only_successes k st :
  let o := resolve_client_for_team remote k st in
  (forall e, fst o = Raise e -> _team_cache (self (snd o)) = _team_cache (self st)) /\
  (forall c, fst o = Ok c ->
     exists w,
       _team_cache (self (snd o)) !! Str.upper k = Some w /\
       client_of (snd o) w = Some c /\
       (_team_cache (self (snd o)) = _team_cache (self st) \/
        _team_cache (self st) !! Str.upper k = None /\
        _team_cache (self (snd o)) = <[Str.upper k := w]> (_team_cache (self st)))).
Proof.
  destruct (resolve_any remote k st) as (r & st' & cs & Hres & _ & _ & _ & Hr).
  rewrite Hres. simpl. split.
  - intros e ->. by destruct Hr as [Heq _].
  - intros c ->. destruct Hr as (w & Hcl & Hcache & _ & Hhow). by exists w.
Qed.

(** X4. The team key is read without regard to case: two keys with the
    same upper-cased form leave the same state behind and give the same
    client, or both raise. Upper-casing a key again changes nothing. *)
Theorem resolve_ignores_case k1 k2 st :
  Str.upper k1 = Str.upper k2 ->
  Str.upper (Str.upper k1) = Str.upper k1 /\
  snd (resolve_client_for_team remote k1 st) = snd (resolve_client_for_team remote k2 st) /\
  match fst (resolve_client_for_team remote k1 st),
        fst (resolve_client_for_team remote k2 st) with
  | Ok c1, Ok c2 => c1 = c2
  | Raise _, Raise _ => True
  | _, _ => False
  end.
Proof.
  intros Hup. split; [apply upper_idempotent|].
  destruct (_team_cache (self st) !! Str.upper k1) as [w|] eqn:Hc.
  - rewrite (resolve_cached remote k1 w st Hc).
    rewrite Hup in Hc. rewrite (resolve_cached remote k2 w st Hc).
    split; [done|]. by destruct (get_client w st) as [[c|e] st'].
  - rewrite (resolve_uncached remote k1 st Hc).
    rewrite Hup in Hc. rewrite (resolve_uncached remote k2 st Hc), Hup.
    by destruct (probe remote (Str.upper k2) (workspace_names (self st)) st)
      as [[[c|]|e] st'].
Qed.

(** X5. When the cache names only configured workspaces, as it does in
    every reachable state, [resolve_client_for_team] raises nothing but
    [TeamNotFoundError], whose message names the key as it was given and
    lists the configured workspaces. *)
Theorem resolve_raises_only_team_not_found k st e :
  cache_configured (self st) ->
  fst (resolve_client_for_team remote k st) = Raise e ->
  e = TeamNotFoundError
        ("Team '" +:+ k +:+ "' not found in any workspace. Searched workspaces: "
         +:+ Str.join ", " (workspace_names (self st))
         +:+ ". Use linear_list_workspaces to see available teams.").
Proof.
  intros Hcfg. destruct (resolve_any remote k st) as (r & st' & cs & -> & _ & _ & _ & Hr).
  simpl. intros ->.
  destruct Hr as (_ & [[-> _] | (w & Hc & Hnone & _)]); [reflexivity|].
  apply Hcfg in Hc. apply dict_get_None in Hnone. contradiction.
Qed.


(** X7. Once a key has been resolved, resolving it again, in any case of
    its letters, returns the same client object and changes nothing: no
    remote call, no new client, no cache update. *)
Theorem resolve_again_is_stable k k' c st st1 :
  resolve_client_for_team remote k st = (Ok c, st1) ->
  Str.upper k' = Str.upper k ->
  resolve_client_for_team remote k' st1 = (Ok c, st1).
Proof.
  intros Hres Hup.
  destruct (resolve_any remote k st) as (r & st' & cs & Hres' & Hg & _ & _ & Hr).
  rewrite Hres in Hres'. injection Hres' as <- <-.
  destruct Hr as (w & Hcl & Hcache & Hcfg & _).
  rewrite <- Hup in Hcache. rewrite (resolve_cached remote k' w st1 Hcache).
  apply get_client_cached; [|done]. by rewrite (grows_workspaces _ _ Hg).
Qed.

(** X8. The number of an issue identifier plays no part in the
    resolution: two identifiers with the same letters resolve alike, in
    result and in state, and as the letters alone. *)
Theorem issue_number_is_irrelevant letters digits1 digits2 st :
  letters <> "" -> Str.all_chars Str.is_alpha letters = true ->
  digits1 <> "" -> Str.all_chars Str.is_digit digits1 = true ->
  digits2 <> "" -> Str.all_chars Str.is_digit digits2 = true ->
  resolve_client_for_issue remote (letters +:+ "-" +:+ digits1) st =
    resolve_client_for_team remote letters st /\
  resolve_client_for_issue remote (letters +:+ "-" +:+ digits1) st =
    resolve_client_for_issue remote (letters +:+ "-" +:+ digits2) st.
Proof.
  intros Hl Hla Hd1 Hda1 Hd2 Hda2.
  assert (H1 : issue_match (letters +:+ "-" +:+ digits1) = Some (letters, digits1))
    by (apply issue_match_iff; auto 6).
  assert (H2 : issue_match (letters +:+ "-" +:+ digits2) = Some (letters, digits2))
    by (apply issue_match_iff; auto 6).
  unfold resolve_client_for_issue. by rewrite H1, H2.
Qed.


End ResolutionProperties.

(** ** Clients *)

Lemma dict_get_Some_values {V} (d : Dict.t V) k v :
  Dict.get d k = Some v -> v ∈ Dict.values d.
Proof.
  induction d as [|[k' v'] d IH]; simpl; [done|].
  destruct (String.eqb k' k).
  - intros [= ->]. left.
  - intros H. right. by apply IH.
Qed.

(** In a dictionary whose values are all different a value has one key. *)
Lemma dict_get_inj {V} (d : Dict.t V) k1 k2 v :
  NoDup (Dict.values d) ->
  Dict.get d k1 = Some v -> Dict.get d k2 = Some v -> k1 = k2.
Proof.
  induction d as [|[k x] d IH]; simpl; [done|].
  intros [Hx Hd]%NoDup_cons.
  destruct (String.eqb_spec k k1) as [<-|_], (String.eqb_spec k k2) as [<-|_].
  - done.
  - intros [= ->] H2%dict_get_Some_values. contradiction.
  - intros H1%dict_get_Some_values [= ->]. contradiction.
  - by apply IH.
Qed.

Lemma closed_clients_elem c cs : Close c ∈ cs -> c ∈ closed_clients cs.
Proof.
  intros Hin. apply list_elem_of_In, in_flat_map. exists (Close c).
  split; [by apply list_elem_of_In | by left].
Qed.

(** X10. [get_client] touches nothing but the client of the workspace
    asked for: the cache, the log, the configuration and the clients of
    the other workspaces are as before; it constructs at most one client;
    and when the workspace already has one, the state is unchanged. *)
Theorem get_client_frame w st :
  let st' := snd (get_client w st) in
  _team_cache (self st') = _team_cache (self st) /\
  calls (world st') = calls (world st) /\
  same_config st st' /\
  (forall w', w' <> w -> client_of st' w' = client_of st w') /\
  (next_id (world st') <= S (next_id (world st)))%nat /\
  (forall c, client_of st w = Some c -> st' = st).
Proof.
  destruct (get_client_any w st)
    as (r & st' & -> & Hg & Hcache & Hcalls & Hnext & Hother & Hsame & _).
  simpl. split_and!; try done. by apply grows_same_config.
Qed.

(** X11. The client [get_client] returns for a configured workspace
    stores the credential of that workspace and the endpoint and timeout
    of the registry, whether it was held already or is constructed by
    this call. *)
Theorem get_client_carries_credential w api_key st :
  clients_built st ->
  Dict.get (_workspaces (self st)) w = Some api_key ->
  exists c st',
    get_client w st = (Ok c, st') /\
    LinearClient._api_key c = api_key /\
    LinearClient._api_url c = _api_url (self st) /\
    LinearClient._timeout c = _timeout (self st).
Proof.
  intros Hb Ha.
  destruct (get_client_configured w api_key st Ha)
    as (c & st' & Hget & Hc & Hg & _ & _ & Hb' & _).
  exists c, st'. split; [done|].
  destruct (Hb' Hb w c Hc) as (a & Ha' & Hk & Hu & Ht).
  rewrite (grows_workspaces _ _ Hg) in Ha'.
  rewrite Hu, Ht, (grows_api_url _ _ Hg), (grows_timeout _ _ Hg).
  split_and!; congruence.
Qed.

(** X12. Two workspaces never share a client: in a state that satisfies
    the invariant of the reachable states, a client object is held for
    one workspace name only. *)
Theorem workspaces_do_not_share_clients w1 w2 c st :
  registry_inv st ->
  client_of st w1 = Some c -> client_of st w2 = Some c -> w1 = w2.
Proof.
  intros Hinv. apply dict_get_inj.
  pose proof (created_NoDup st (inv_created st Hinv)) as Hnd.
  by apply NoDup_app in Hnd as (_ & _ & Hheld).
Qed.

(** X13. The registry holds clients for configured workspaces only, one
    each at most: the names that have a client are configured names, and
    there are never more clients than workspaces. *)
Theorem clients_only_for_configured_workspaces st :
  registry_inv st ->
  Dict.keys (_clients (self st)) ⊆ workspace_names (self st) /\
  length (_clients (self st)) <= length (_workspaces (self st)).
Proof.
  intros Hinv.
  assert (Hsub : Dict.keys (_clients (self st)) ⊆ workspace_names (self st)).
  { intros w [c Hc]%dict_get_is_Some.
    destruct (inv_built st Hinv w c Hc) as (a & Ha & _).
    apply dict_get_is_Some. eauto. }
  split; [done|].
  pose proof (submseteq_length _ _
                (NoDup_submseteq _ _ (inv_clients st Hinv) Hsub)) as Hlen.
  unfold Dict.keys, workspace_names, Dict.keys in Hlen.
  by rewrite !length_map in Hlen.
Qed.

(** X14. [get_client] never hands out a closed client: in a state that
    satisfies the invariant of the reachable states, the client it
    returns has no [close] on the log. *)
Theorem get_client_returns_open_client w c st st' :
  registry_inv st ->
  get_client w st = (Ok c, st') ->
  Close c ∉ calls (world st').
Proof.
  intros Hinv Hget Hclosed.
  pose proof (get_client_inv w st Hinv) as Hinv'. rewrite Hget in Hinv'. simpl in Hinv'.
  destruct (get_client_any w st) as (r & st0 & Hget0 & _ & _ & _ & _ & _ & _ & Hr).
  rewrite Hget in Hget0. injection Hget0 as <- <-. destruct Hr as [_ Hc].
  pose proof (created_NoDup st' (inv_created st' Hinv')) as Hnd.
  apply NoDup_app in Hnd as (_ & Hdisj & _).
  apply (Hdisj c); [by apply closed_clients_elem | by apply (dict_get_Some_values _ w)].
Qed.

(** ** Bulk listing, then resolution *)

Lemma insert_all_lookup_notin kvs : forall (m : gmap string string) key,
  key ∉ map fst kvs -> insert_all m kvs !! key = m !! key.
Proof.
  induction kvs as [|[k v] kvs IH]; intros m key Hnot; [done|].
  simpl in *. apply not_elem_of_cons in Hnot as [Hne Hnot].
  rewrite (IH _ _ Hnot). by apply lookup_insert_ne.
Qed.

Lemma insert_all_lookup_const kvs v : forall (m : gmap string string) key,
  key ∈ map fst kvs -> Forall (fun kv => snd kv = v) kvs ->
  insert_all m kvs !! key = Some v.
Proof.
  induction kvs as [|[k0 v0] kvs IH]; intros m key Hin Hall.
  { by apply elem_of_nil in Hin. }
  apply Forall_cons in Hall as [Hv Hall]. simpl in *. subst v0.
  destruct (decide (key ∈ map fst kvs)) as [Hrest | Hrest]; [by apply IH|].
  apply elem_of_cons in Hin as [-> | Hin]; [|contradiction].
  rewrite (insert_all_lookup_notin _ _ _ Hrest). apply lookup_insert_eq.
Qed.

Section ListingProperties.

Context (remote : Remote).

(** X15. After the bulk listing, a team that workspace [w] listed, and
    that no workspace later in the configuration listed under the same
    upper-cased key, is cached under [w]: resolving its key, in any case
    of its letters, returns the client of [w] and changes nothing, with
    no remote call. Where several workspaces list a key, the last one in
    configuration order is the one cached. *)
Theorem listing_then_resolving st l1 w api_key l2 ts t :
  registry_inv st ->
  _workspaces (self st) = l1 ++ (w, api_key) :: l2 ->
  listing_reply remote (self st) api_key = Returns ts ->
  t ∈ ts ->
  (forall w2 a2 ts2 t2,
     (w2, a2) ∈ l2 -> listing_reply remote (self st) a2 = Returns ts2 -> t2 ∈ ts2 ->
     Str.upper (Team.key t2) <> Str.upper (Team.key t)) ->
  let st' := snd (list_all_workspaces_with_teams remote st) in
  _team_cache (self st') !! Str.upper (Team.key t) = Some w /\
  exists c,
    client_of st' w = Some c /\
    forall k, Str.upper k = Str.upper (Team.key t) ->
              resolve_client_for_team remote k st' = (Ok c, st').
Proof.
  intros Hinv Hws Hreply Ht Hlater. set (key := Str.upper (Team.key t)).
  destruct (list_loop_post remote (_workspaces (self st)) st [])
    as (st' & cs & Hloop & Hg & _ & _ & Hcache & Hf2 & _).
  { intros w0 a0. apply dict_get_wf_elem, Hinv. }
  { apply Hinv. }
  assert (Hsnd : snd (list_all_workspaces_with_teams remote st) = st').
  { unfold list_all_workspaces_with_teams, bind at 1, get_self.
    unfold bind at 1, Dict.keys. by rewrite Hloop. }
  rewrite Hsnd. clear Hsnd Hloop.
  assert (Hkey : _team_cache (self st') !! key = Some w).
  { rewrite Hcache, Hws, flat_map_app. cbn [flat_map fst snd].
    rewrite Hreply, !insert_all_app, insert_all_lookup_notin.
    - apply insert_all_lookup_const.
      + apply list_elem_of_fmap. exists (key, w). split; [done|].
        apply list_elem_of_fmap. by exists t.
      + apply Forall_forall. by intros kv [t0 [-> _]]%list_elem_of_fmap.
    - intros [[k0 w0] [Hk0 Hin]]%list_elem_of_fmap. simpl in Hk0. subst k0.
      apply list_elem_of_In, in_flat_map in Hin as ([w2 a2] & Hin2 & Hd).
      apply list_elem_of_In in Hin2. simpl in Hd.
      destruct (listing_reply remote (self st) a2) as [ts2|msg] eqn:Hr2; [|done].
      apply list_elem_of_In, list_elem_of_fmap in Hd as (t2 & [= Hk2 _] & Ht2).
      by apply (Hlater w2 a2 ts2 t2). }
  split; [done|].
  assert (Hc : exists c, client_of st' w = Some c).
  { unfold workspace_names, Dict.keys in Hf2. rewrite Hws, map_app in Hf2.
    apply Forall2_app_inv_l in Hf2 as (cs1 & cs2 & _ & Hf2 & _).
    simpl in Hf2. apply Forall2_cons_inv_l in Hf2 as (c & cs3 & Hc & _). eauto. }
  destruct Hc as [c Hc]. exists c. split; [done|].
  intros k Hk. rewrite <- Hk in Hkey. rewrite (resolve_cached remote k w st' Hkey).
  apply get_client_cached; [|done].
  rewrite (grows_workspaces _ _ Hg), Hws. apply dict_get_is_Some.
  unfold Dict.keys. rewrite map_app. apply elem_of_app. right. left.
Qed.

End ListingProperties.

(** ** Settings *)

(** X16. Settings that pass [validate_linear_config] come back unchanged
    and resolve to a mapping that is not empty and holds no [None]
    credential: the configured workspaces when there is at least one,
    whatever the single key is; otherwise the one workspace [default] with
    the single key, which is then a non-empty string. *)
Theorem validated_settings_resolve s s' :
  validate_linear_config s = Ok s' ->
  s' = s /\
  exists d,
    d <> [] /\ resolved_workspaces s = credentials d /\
    match Settings.linear_workspaces s with
    | Some (e :: ws) => d = e :: ws
    | _ => exists key, key <> "" /\ Settings.linear_api_key s = Some key /\
                       d = [("default", key)]
    end.
Proof.
  unfold validate_linear_config, resolved_workspaces.
  destruct (Settings.linear_workspaces s) as [[|e ws]|] eqn:Hws;
    destruct (Settings.linear_api_key s) as [[|c key]|] eqn:Hkey; simpl;
    intros [= <-]; (split; [done|]).
  all: first [ by exists [("default", String c key)]; split_and!; try done;
                  exists (String c key)
             | by exists (e :: ws) ].
Qed.

(** X17. [validate_linear_config] raises exactly when the single key is
    [None] or empty and the workspaces are [None] or empty, and the error
    names both settings. *)
Theorem settings_rejected_iff s :
  (exists e, validate_linear_config s = Raise e) <->
  (Settings.linear_api_key s = None \/ Settings.linear_api_key s = Some "") /\
  (Settings.linear_workspaces s = None \/ Settings.linear_workspaces s = Some []).
Proof.
  unfold validate_linear_config.
  destruct (Settings.linear_workspaces s) as [[|e ws]|];
    destruct (Settings.linear_api_key s) as [[|c key]|]; simpl; split;
    try (intros [e' [=]]); try (intros [[[=]|[=]] [[=]|[=]]]); eauto.
Qed.

Section BeforeValidatorProperties.

Context {Obj : Type} (truthy : Obj -> bool).
Context (json_loads : string -> Result (PyValue Obj)).


End BeforeValidatorProperties.

(** ** Reachable states *)

(** X19. Every state reachable from the construction of a registry by the
    public operations keeps the invariant: the workspace mapping and the
    client mapping have no repeated key, the cache names configured
    workspaces only, every client held stores the credential of its
    workspace and the registry's endpoint and timeout, and the clients
    created so far, closed or held, are distinct objects allocated one
    after the other. *)
Theorem reachable_states_keep_invariant remote st :
  reachable remote st ->
  Dict.wf (_workspaces (self st)) /\ Dict.wf (_clients (self st)) /\
  cache_configured (self st) /\ clients_built st /\
  NoDup (created st) /\
  (forall c, c ∈ created st -> (LinearClient.id c < next_id (world st))%nat).
Proof.
  intros Hinv%reachable_inv. destruct Hinv as [? ? ? Hcr ?].
  split_and!; try done; [by apply created_NoDup|].
  intros c. by apply created_old.
Qed.

(** ** The further properties on the registry of the tests *)

Lemma resolve_ignores_case_witness :
  Str.upper (Str.upper "back") = Str.upper "back" /\
  snd (resolve_client_for_team Fixture.remote "back" Fixture.start) =
    snd (resolve_client_for_team Fixture.remote "BaCk" Fixture.start) /\
  match fst (resolve_client_for_team Fixture.remote "back" Fixture.start),
        fst (resolve_client_for_team Fixture.remote "BaCk" Fixture.start) with
  | Ok c1, Ok c2 => c1 = c2
  | Raise _, Raise _ => True
  | _, _ => False
  end.
Proof.
  apply (resolve_ignores_case Fixture.remote "back" "BaCk" Fixture.start).
  reflexivity.
Defined.

Lemma resolve_raises_only_team_not_found_witness :
  TeamNotFoundError (team_not_found_message (self Fixture.start) "UNKNOWN") =
  TeamNotFoundError
    ("Team 'UNKNOWN' not found in any workspace. Searched workspaces: ios, backend"
     +:+ ". Use linear_list_workspaces to see available teams.").
Proof.
  apply (resolve_raises_only_team_not_found Fixture.remote "UNKNOWN" Fixture.start).
  - by intros key w.
  - vm_compute. reflexivity.
Defined.

Lemma resolve_again_is_stable_witness :
  let st1 := snd (resolve_client_for_team Fixture.remote "back" Fixture.start) in
  exists c, resolve_client_for_team Fixture.remote "BACK" st1 = (Ok c, st1).
Proof.
  eexists.
  apply (resolve_again_is_stable Fixture.remote "back" "BACK" _ Fixture.start).
  - vm_compute. reflexivity.
  - reflexivity.
Defined.

Lemma issue_number_is_irrelevant_witness :
  resolve_client_for_issue Fixture.remote "FAVRES-123" Fixture.start =
    resolve_client_for_team Fixture.remote "FAVRES" Fixture.start /\
  resolve_client_for_issue Fixture.remote "FAVRES-123" Fixture.start =
    resolve_client_for_issue Fixture.remote "FAVRES-7" Fixture.start.
Proof.
  apply (issue_number_is_irrelevant Fixture.remote "FAVRES" "123" "7" Fixture.start);
    done.
Defined.

Lemma get_client_carries_credential_witness :
  exists c st',
    get_client "ios" Fixture.start = (Ok c, st') /\
    LinearClient._api_key c = "lin_api_ios" /\
    LinearClient._api_url c = Fixture.url /\
    LinearClient._timeout c = 10 # 1.
Proof.
  apply (get_client_carries_credential "ios" "lin_api_ios" Fixture.start).
  - exact fixture_built.
  - reflexivity.
Defined.

Lemma fixture_listed_inv :
  registry_inv (run_op Fixture.remote OpListAll Fixture.start).
Proof. apply (reachable_inv Fixture.remote), reachable_step, fixture_reachable_start. Qed.

Lemma workspaces_do_not_share_clients_witness : "backend" = "backend".
Proof.
  apply (workspaces_do_not_share_clients "backend" "backend"
           (fresh_client (install Fixture.start "ios" (fresh_client Fixture.start "lin_api_ios"))
              "lin_api_backend")
           (run_op Fixture.remote OpListAll Fixture.start)).
  - exact fixture_listed_inv.
  - vm_compute. reflexivity.
  - vm_compute. reflexivity.
Defined.

Lemma clients_only_for_configured_workspaces_witness :
  let st := run_op Fixture.remote OpListAll Fixture.start in
  Dict.keys (_clients (self st)) ⊆ workspace_names (self st) /\
  length (_clients (self st)) <= length (_workspaces (self st)).
Proof.
  apply (clients_only_for_configured_workspaces
           (run_op Fixture.remote OpListAll Fixture.start)).
  exact fixture_listed_inv.
Defined.

Lemma get_client_returns_open_client_witness :
  let st := run_op Fixture.remote OpListAll Fixture.start in
  Close (fresh_client Fixture.start "lin_api_ios") ∉ calls (world st).
Proof.
  apply (get_client_returns_open_client "ios"
           (fresh_client Fixture.start "lin_api_ios")
           (run_op Fixture.remote OpListAll Fixture.start)
           (run_op Fixture.remote OpListAll Fixture.start)).
  - exact fixture_listed_inv.
  - vm_compute. reflexivity.
Defined.

Lemma listing_then_resolving_witness :
  let st' := snd (list_all_workspaces_with_teams Fixture.remote Fixture.start) in
  _team_cache (self st') !! "FAVRES" = Some "ios" /\
  exists c,
    client_of st' "ios" = Some c /\
    forall k, Str.upper k = "FAVRES" ->
              resolve_client_for_team Fixture.remote k st' = (Ok c, st').
Proof.
  apply (listing_then_resolving Fixture.remote Fixture.start
           [] "ios" "lin_api_ios" [("backend", "lin_api_backend")]
           [Fixture.favres] Fixture.favres).
  - apply (reachable_inv Fixture.remote), fixture_reachable_start.
  - reflexivity.
  - reflexivity.
  - apply list_elem_of_here.
  - intros w2 a2 ts2 t2 [= -> ->]%list_elem_of_singleton [= <-]
      ->%list_elem_of_singleton.
    discriminate.
Defined.

Lemma validated_settings_resolve_witness :
  single_key_settings = single_key_settings /\
  exists d,
    d <> [] /\ resolved_workspaces single_key_settings = credentials d /\
    exists key, key <> "" /\ Some "lin_api_single" = Some key /\ d = [("default", key)].
Proof.
  apply (validated_settings_resolve single_key_settings single_key_settings).
  reflexivity.
Defined.

Lemma reachable_states_keep_invariant_witness :
  let st := run_op Fixture.remote (OpResolveTeam "back") Fixture.start in
  Dict.wf (_workspaces (self st)) /\ Dict.wf (_clients (self st)) /\
  cache_configured (self st) /\ clients_built st /\
  NoDup (created st) /\
  (forall c, c ∈ created st -> (LinearClient.id c < next_id (world st))%nat).
Proof.
  apply (reachable_states_keep_invariant Fixture.remote
           (run_op Fixture.remote (OpResolveTeam "back") Fixture.start)).
  apply reachable_step, fixture_reachable_start.
Defined.

(** ** What a resolution that returns has found *)

Section ResolutionSoundness.

Context (remote : Remote).

(** X20. In a state that satisfies the invariant of the reachable states,
    the client [resolve_client_for_team] returns is the client the
    registry holds for a configured workspace, the one the cache then maps
    the upper-cased key to, and it stores that workspace's credential. *)
Theorem resolve_returns_configured_client k c st st1 :
  registry_inv st ->
  resolve_client_for_team remote k st = (Ok c, st1) ->
  exists w api_key,
    Dict.get (_workspaces (self st)) w = Some api_key /\
    _team_cache (self st1) !! Str.upper k = Some w /\
    client_of st1 w = Some c /\
    LinearClient._api_key c = api_key.
Proof.
  intros Hinv Hres.
  pose proof (resolve_client_for_team_inv remote k st Hinv) as Hinv1.
  rewrite Hres in Hinv1. simpl in Hinv1.
  destruct (resolve_any remote k st) as (r & st' & cs & Hres' & Hg & _ & _ & Hr).
  rewrite Hres in Hres'. injection Hres' as <- <-.
  destruct Hr as (w & Hcl & Hcache & _ & _).
  destruct (inv_built st1 Hinv1 w c Hcl) as (a & Ha & Hk & _).
  exists w, a. split_and!; try done. by rewrite <- (grows_workspaces _ _ Hg).
Qed.

(** X21. On a cache miss the outcome tells what the workspaces answered.
    If a client is returned, it is the client of a workspace that
    answered the lookup with a team, and every workspace before it in the
    configuration answered with no team or with a remote-client error.
    If the call raises, every configured workspace answered so. *)
Theorem resolve_miss_outcome_sound k st :
  clients_built st ->
  _team_cache (self st) !! Str.upper k = None ->
  match resolve_client_for_team remote k st with
  | (Ok c, st1) =>
      exists pre w post,
        workspace_names (self st) = pre ++ w :: post /\
        Forall (fun w' => misses remote (self st) w' (Str.upper k)) pre /\
        owns remote (self st) w (Str.upper k) /\
        client_of st1 w = Some c
  | (Raise _, _) =>
      Forall (fun w => misses remote (self st) w (Str.upper k)) (workspace_names (self st))
  end.
Proof.
  intros Hbuilt Hmiss.
  destruct (probe_post remote (Str.upper k) (workspace_names (self st)) st)
    as (found & st' & probed & cs & Hp & _ & _ & _ & _ & _ & Hfound); [done.. |].
  rewrite (resolve_uncached remote k st Hmiss), Hp.
  destruct found as [c|].
  - destruct Hfound as (pre & w & post & Hsplit & _ & Hpre & Hown & _ & Hc).
    by exists pre, w, post.
  - by destruct Hfound as (_ & _ & Hall).
Qed.

End ResolutionSoundness.

Lemma resolve_returns_configured_client_witness :
  let st1 := snd (resolve_client_for_team Fixture.remote "back" Fixture.start) in
  let c := fresh_client (install Fixture.start "ios" (fresh_client Fixture.start "lin_api_ios"))
             "lin_api_backend" in
  exists w api_key,
    Dict.get Fixture.workspaces w = Some api_key /\
    _team_cache (self st1) !! "BACK" = Some w /\
    client_of st1 w = Some c /\
    LinearClient._api_key c = api_key.
Proof.
  apply (resolve_returns_configured_client Fixture.remote "back"
           (fresh_client (install Fixture.start "ios" (fresh_client Fixture.start "lin_api_ios"))
              "lin_api_backend")
           Fixture.start
           (snd (resolve_client_for_team Fixture.remote "back" Fixture.start))).
  - apply (reachable_inv Fixture.remote), fixture_reachable_start.
  - vm_compute. reflexivity.
Defined.

Lemma resolve_miss_outcome_sound_witness :
  match resolve_client_for_team Fixture.remote_ios_down "back" Fixture.start with
  | (Ok c, st1) =>
      exists pre w post,
        ["ios"; "backend"] = pre ++ w :: post /\
        Forall (fun w' => misses Fixture.remote_ios_down (self Fixture.start) w' "BACK") pre /\
        owns Fixture.remote_ios_down (self Fixture.start) w "BACK" /\
        client_of st1 w = Some c
  | (Raise _, _) =>
      Forall (fun w => misses Fixture.remote_ios_down (self Fixture.start) w "BACK")
        ["ios"; "backend"]
  end.
Proof.
  apply (resolve_miss_outcome_sound Fixture.remote_ios_down "back" Fixture.start).
  - exact fixture_built.
  - reflexivity.
Defined.
